(* ===== verification/_CoqProject ===== *)
-Q . S2P
Prelude.v
JsRegex.v
Link.v
Callback.v
Title.v
Paths.v
Fs.v
Bot.v
BotFacts.v
Protocol.v
Isolation.v
