(* ===== verification/Prelude.v ===== *)
(** * A verification library for the YouTube download bot [src/ytdl-t.m.js]

    The program is a Telegram bot of about ninety lines, written against the
    Telegraf client and the ytdl-core extraction library.  It registers four
    handlers on one process-wide [bot] object:
    - [bot.start] (lines 11-13) greets the user;
    - [bot.on('text')] (lines 15-30) searches the message for a YouTube link
      with [YT_REGEX] (line 9) and answers either with a validation error or
      with an inline keyboard whose two buttons carry the callback tokens
      [video_<id>] and [audio_<id>];
    - [bot.action(/^(video|audio)_(.+)$/)] (lines 32-88) decodes a token,
      acknowledges the callback, fetches the video's metadata, sanitises its
      title (line 44), derives a temporary file path (lines 46-50), deletes a
      stale file there (line 53), pipes the media stream into a new file
      (lines 57-64) and, on the file's [finish] event, uploads it and deletes
      it (lines 71-78); a stream error (lines 80-83) and a synchronous
      exception (lines 84-87) both answer with an error and delete the file;
    - [bot.catch] (lines 91-94) answers "Bot error!" for a rejected handler.
    The handlers share no memory; they interact only through the callback
    token (the state of a pending choice is serialised into it) and through
    the working directory, where two invocations for the same (type, id)
    pair use the same path.

    ** Files, in dependency order
    - [Prelude] (this file): JS strings as lists of UTF-16 code units ([N]),
      string literals [⟦"..."⟧], the prefix test [prefixb], the UTF-8
      length [utf8_len] of a string sent in a request, the shared list
      lemmas, the hint database [js] and the tactic [vm_lhs].
    - [JsRegex]: the subset of ECMAScript regular expressions the program
      uses (literal code units, character classes with [\w], [\s], [.],
      ranges and negation, sequence, alternation, capturing and
      non-capturing groups, greedy counted repetition of a class, [^], [$])
      as an AST, with the backtracking matcher of ECMA-262 22.2.2 in
      continuation-passing style, [RegExp.prototype.exec]'s scan for the
      leftmost match, and global [String.prototype.replace].  Generic lemmas
      compute the matcher on literals, exact repetitions and anchors, and
      characterise [exec] as the leftmost successful position.
    - [Link]: [YT_REGEX] as an AST, [text.match(YT_REGEX)[1]] as
      [yt_video_id]; its functional specification (the result is the
      identifier after the leftmost occurrence of one of the two URL shapes)
      and a reference scanner it is proved equal to.
    - [Callback]: the token written by the text handler and the action
      pattern that decodes it; round trip, exact characterisation, and
      the size of the data against the Bot API's 64-byte bound.
    - [Title]: the title sanitiser of line 44 through the generic global
      replace, its equality with a per-code-unit map, idempotence, length
      preservation and the shape of its output.
    - [Paths]: [tempFileName] (lines 46-49), Node's POSIX [path.join] and
      [path.normalize] (segments, [.] and [..] resolution, the leading
      slash kept), and [filePath] (line 50); the path of an identifier the
      text handler extracts stays in [__dirname] and is injective in the
      (type, identifier) pair, while arbitrary callback data escapes it.
    - [Fs]: the working directory as directory entries over inodes (POSIX
      unlink semantics: an open stream keeps writing to an unlinked inode),
      with [existsSync], [unlinkSync], the guarded unlink of lines 53, 82
      and 86, the [open(p, 'w')] of [createWriteStream] (line 63, which
      truncates and shares an existing inode), piped writes and the
      upload's read by path; the invariant [fs_wf] and its preservation.
    - [Bot]: the world record (directory, requests sent to Telegram,
      in-flight invocations, rejections), the handlers [on_start],
      [on_text] and one resumption [inv_step] of the action handler (its
      local variables as the record [inv], its suspension points as the
      [phase]), Telegraf's registration-order [dispatch], the executable
      partial [step] over events and [run] over event lists, and the
      inductive [reachable]; the invariant of the world ([world_wf]), the
      rank that bounds an invocation's resumptions and the [drain] events
      that bring it to rest.  When line 63 throws, the media stream of
      lines 58-61 stays in the model (phase [PDetached]): it has no
      listener, and an error it emits is an uncaught exception.
    - [BotFacts]: the end-to-end theorems on the world.
    - [Protocol]: the conversation one button promises (spec, sections
      4.1 and 7) as an abstract labelled transition system [pstep] driven
      by the outcomes of the external operations, without directory or
      write stream, for a chat that accepts the bot's messages or refuses
      them; the simulation relation [sim] and the proof that one
      invocation refines it.
    - [Isolation]: the run invariant [iso_inv] (each invocation's
      received bytes are in its buffer or in the inode its path names, no
      two entries share an inode) and the proof that invocations on
      different paths do not interfere; an invocation at rest keeps its
      directory entry while no other invocation takes its path.

    ** What the theorems show
    - Links ([Link.YtLinkFacts]): [yt_video_id] is the identifier after the
      leftmost URL shape, [None] exactly when no position starts one, and
      equals the reference scanner [find_link].
    - Tokens ([Callback.TokenFacts]): the action pattern accepts exactly
      [video_v] / [audio_v] with [v] non-empty and free of line
      terminators, and every token the text handler writes decodes back.
    - Titles ([Title.TitleFacts]): the sanitiser is a per-code-unit map,
      idempotent, length preserving, with only kept code units in its
      output.
    - Paths ([Paths.TempPathFacts]): containment in [__dirname] and
      injectivity for extracted identifiers.
    - Bot ([BotFacts.BotFacts]): the reply to a text message; the outcome of a
      pressed button on each path of the handler (success, metadata
      failure, stream error after and before the file opens, failed
      upload, synchronous failure) with the exact requests sent, the files
      left behind and the rejections and exceptions raised; and the race
      of two invocations on one path, for any world, chats, titles and
      chunks, in the interleaving where one uploads the other's bytes.
    - Refinement ([Protocol.ProtocolFacts]): every run of one invocation
      on its own is a run of the abstract conversation with the same
      messages, whether or not the chat accepts them; from the abstract
      contract alone, the attachment carries exactly the bytes the media
      stream emitted, in every order of the events; at most one message
      ends the conversation, except the two a refusing chat is sent when
      the metadata request fails; and every invocation can be brought to
      rest, where it has always sent a message that ends it.
    - Isolation ([Isolation.IsolationFacts]): in every run where no two
      invocations are given one path, each attachment carries exactly its
      own stream's bytes, whatever the interleaving; with a shared path
      the race of [race_same_key] corrupts it.  The empty file an early
      stream error leaves stays through every run in which no other
      invocation takes its path.
    - Rejections ([BotFacts]): which failures reach [bot.catch] and
      which escape it: the validation reply and [answerCbQuery] are
      awaited and the metadata failure's reply (line 42) is returned,
      the prompt, the other replies of the action handler, [bot.catch]'s
      own reply and the upload in the [finish] listener are not.
    - Bounds ([Callback.TokenFacts]): each button's callback data is 17
      bytes in UTF-8, within the Bot API's limit of 64.
    - Frame and termination ([Bot], section [Progress], stated in
      [BotFacts]): a resumption changes the directory only at its
      invocation's path; the rank of a phase bounds the remaining
      resumptions, so in every run each invocation is resumed at most six
      times apart from data chunks; and a callback update is answered
      exactly when its data is a button token.

    ** Bounds and fuel
    The regex matcher needs no fuel: it recurses on the regex, the scan
    and the greedy back-off on the input.  The global replace loops with
    fuel [S (length s)]; each iteration consumes at least one code unit of
    the single-code-unit pattern it is used with, and [replace_from_class]
    proves the result independent of any larger fuel.  Path normalisation
    and the event runs recurse structurally on lists; the termination of
    an invocation is a theorem (at most six resumptions besides chunks),
    not a fuel bound.  Integers are unbounded: chat ids ([Z]) and query and invocation numbers ([nat]) are
    only compared, never computed with, so no width matters.

    ** Not modelled
    Process start-up (dotenv, [BOT_TOKEN], lines 1-7) is configuration;
    [bot.launch] (line 96) appears only as the event loop [Bot.run] over
    a given sequence of events, the polling itself is I/O; the progress
    listener (lines 66-69) has an empty body; Telegram's servers and ytdl-core's network access are the
    environment, whose results (answered queries, metadata, chunks,
    errors, upload outcomes) are the [act] events of [Bot].  Whether a
    chat accepts the bot's text messages is not an event of its own but a
    flag of the update ([delivered] of [UText] and [UCallback], kept in
    [i_delivered] for an invocation): a chat either accepts them or
    refuses them all (a user who blocked the bot), so a chat that refuses
    one message but accepts the next is not modelled.  A synchronous
    exception inside the [try] of lines 57-64 is modelled only for an
    invalid path (the NUL code unit that makes [createWriteStream] throw);
    ytdl-core's own synchronous errors are not.  The write stream never
    fails: a failed [open] or write (no permission, a full disk) would
    emit [error] on the file, which has no listener, and end the process;
    the model has no event for it.  The upload reads the file atomically
    when [finish] fires, where Telegraf streams it later.  A rejection
    nothing handles and an uncaught exception are recorded in [w_faults]
    and the run goes on: since Node 15 either ends the process, so the
    runs of the model include runs the process no longer has, and every
    property stated for all runs holds a fortiori.  The bot starts from
    an empty directory ([init_world]); files an earlier process left
    behind are not modelled there, though the scenario theorems hold
    from any world.

    ** Modelling choices
    - A JS string is the list of its UTF-16 code units; a character outside
      the BMP is two code units, as the non-unicode regexes see it.
    - Regexes are modelled on the syntax the source writes.
    - The [i] flag of the sanitiser's regex is not modelled separately: in
      non-unicode mode, Canonicalize (ECMA-262 22.2.2.7.3) never maps a code
      unit >= 128 to one < 128, and the class [[^\w\s.-]] contains no letter
      other than ASCII ones, so the class has the same members with and
      without the flag.
    - External libraries (Telegram's servers, ytdl-core's network access)
      are the environment: their results are inputs of the model. *)

From stdpp Require Export base list gmap strings.
From Stdlib Require Export NArith Ascii Lia.

Declare Scope js_scope.
Delimit Scope js_scope with js.
Open Scope list_scope.
Open Scope js_scope.

(** ** JS strings *)

(** A JS string value: its sequence of UTF-16 code units. *)
Abbreviation jsstr := (list N).

(** An ASCII string literal of the source as a JS string. *)
Definition lit (s : string) : jsstr := map N_of_ascii (String.list_ascii_of_string s).
Notation "⟦ s ⟧" := (lit s) (format "⟦ s ⟧") : js_scope.

(** ["_"], the replacement and separator the source writes. *)
Lemma lit_underscore : ⟦"_"⟧ = [95%N].
Proof. reflexivity. Qed.

(** [prefixb w s]: [s.startsWith(w)]. *)
Fixpoint prefixb (w s : jsstr) : bool :=
  match w, s with
  | [], _ => true
  | a :: w', b :: s' => N.eqb a b && prefixb w' s'
  | _ :: _, [] => false
  end.

Create HintDb js.
Create Rewrite HintDb js_rw.

Lemma prefixb_spec w s : prefixb w s = true <-> exists r, s = w ++ r.
Proof.
  revert s; induction w as [|a w IH]; intros [|b s]; simpl.
  - split; eauto.
  - split; eauto.
  - split; [done|]. intros [r Hr]; discriminate.
  - rewrite andb_true_iff, N.eqb_eq, IH. split.
    + intros [-> [r ->]]. eauto.
    + intros [r Hr]. injection Hr as -> ->. eauto.
Qed.

Lemma prefixb_app w r : prefixb w (w ++ r) = true.
Proof. apply prefixb_spec. eauto. Qed.

Lemma prefixb_drop w s : prefixb w s = true -> s = w ++ drop (length w) s.
Proof. intros [r ->]%prefixb_spec. by rewrite drop_app_length. Qed.

Lemma prefixb_false w s : prefixb w s = false -> forall r, s <> w ++ r.
Proof. intros H r ->. by rewrite prefixb_app in H. Qed.

#[export] Hint Rewrite prefixb_app : js_rw.
#[export] Hint Resolve prefixb_app : js.

(** ** Shared list lemmas *)

Lemma drop_S_cons {A} (x : A) (l : list A) n : drop (S n) (x :: l) = drop n l.
Proof. done. Qed.

Lemma forallb_app_iff {A} (f : A -> bool) l1 l2 :
  forallb f (l1 ++ l2) = true <-> forallb f l1 = true /\ forallb f l2 = true.
Proof. rewrite forallb_app. apply andb_true_iff. Qed.

Lemma forallb_Forall {A} (f : A -> bool) l :
  forallb f l = true <-> Forall (fun x => f x = true) l.
Proof. rewrite forallb_forall, Forall_forall. setoid_rewrite list_elem_of_In. reflexivity. Qed.

#[export] Hint Rewrite @forallb_app andb_true_r : js_rw.

(** [split_eqs] breaks conjunctions and equalities of conses in the
    context, the routine step after unfolding a matcher. *)
Ltac split_eqs :=
  repeat match goal with
  | H : _ /\ _ |- _ => destruct H
  | H : exists _, _ |- _ => destruct H
  | H : Some _ = Some _ |- _ => injection H as H
  | H : _ :: _ = _ :: _ |- _ => injection H as H
  | H : (_, _) = (_, _) |- _ => injection H as H
  end; subst.

(** [vm_lhs] evaluates the closed left-hand side of an equation whose
    right-hand side still holds existential variables, so that the
    witnesses of a run are found by unification with its computed
    result. *)
Ltac vm_lhs :=
  lazymatch goal with
  | |- ?l = ?r => let v := eval vm_compute in l in change (v = r)
  end.

(** ** UTF-8 length

    The number of bytes of the UTF-8 encoding of a JS string, as the
    string travels in a JSON request: one byte below U+0080, two below
    U+0800, four for a surrogate pair, three for any other code unit (a
    lone surrogate is sent as U+FFFD). *)
Definition is_high_surrogate (c : N) : bool := (0xD800 <=? c)%N && (c <? 0xDC00)%N.
Definition is_low_surrogate (c : N) : bool := (0xDC00 <=? c)%N && (c <? 0xE000)%N.

Fixpoint utf8_len (s : jsstr) : nat :=
  match s with
  | [] => 0
  | c :: t =>
      if (c <? 0x80)%N then S (utf8_len t)
      else if (c <? 0x800)%N then 2 + utf8_len t
      else match t with
           | d :: t' => if is_high_surrogate c && is_low_surrogate d
                        then 4 + utf8_len t' else 3 + utf8_len t
           | [] => 3
           end
  end.

Lemma utf8_len_app_ascii (a s : jsstr) :
  forallb (fun c => c <? 0x80)%N a = true -> utf8_len (a ++ s) = length a + utf8_len s.
Proof.
  induction a as [|c a IH]; [done|]. simpl. intros [Hc Ha]%andb_true_iff.
  rewrite Hc. f_equal. by apply IH.
Qed.

Lemma utf8_len_ascii (s : jsstr) :
  forallb (fun c => c <? 0x80)%N s = true -> utf8_len s = length s.
Proof.
  intros H. pose proof (utf8_len_app_ascii s [] H) as E. rewrite app_nil_r in E. simpl in E. lia.
Qed.
