(* ===== verification/JsRegex.v ===== *)
(** * JsRegex: the ECMAScript regular expressions the bot uses

    The three regex literals of [src/ytdl-t.m.js] (lines 9, 32 and 44) use
    literal code units, bracket classes with ranges, [\w], [\s], [.] and
    negation, sequence, alternation, capturing and non-capturing groups, a
    counted or [+] quantifier on a single class, and the anchors [^] and [$]
    without the [m] flag.  This file gives that subset an AST [re], the
    backtracking matcher of ECMA-262 22.2.2 as the continuation-passing
    function [m] (greedy quantifiers try the longest count first, an
    alternative is tried only when the first one fails with the same
    continuation, captures travel with the state), [exec] as
    [RegExpBuiltinExec]'s scan from index 0, and [replace_all] as
    [String.prototype.replace] with a global regex.  The lemmas compute the
    matcher on literals, exact repetitions and anchors, and characterise
    [exec] as the leftmost position where the matcher succeeds. *)

From S2P Require Import Prelude.

(** ** Character classes *)

Inductive cls :=
  | CSingle (c : N)            (** one code unit *)
  | CRange (lo hi : N)         (** [a-z] *)
  | CWord                      (** [\w] *)
  | CSpace                     (** [\s] *)
  | CDot                       (** [.] without the [s] flag *)
  | CUnion (a b : cls)
  | CNone
  | CNeg (a : cls).            (** [[^...]] *)

(** LineTerminator (ECMA-262 12.3): LF, CR, LS, PS. *)
Definition is_line_terminator (c : N) : bool :=
  (c =? 10)%N || (c =? 13)%N || (c =? 0x2028)%N || (c =? 0x2029)%N.

(** [\w]: [[A-Za-z0-9_]]. *)
Definition is_word_char (c : N) : bool :=
  ((65 <=? c) && (c <=? 90))%N || ((97 <=? c) && (c <=? 122))%N
  || ((48 <=? c) && (c <=? 57))%N || (c =? 95)%N.

(** [\s]: WhiteSpace (TAB, VT, FF, ZWNBSP, the Zs category) and
    LineTerminator. *)
Definition is_js_space (c : N) : bool :=
  existsb (N.eqb c) [9; 10; 11; 12; 13; 32; 160; 5760; 8232; 8233; 8239; 8287;
                     12288; 65279]%N
  || ((8192 <=? c) && (c <=? 8202))%N.

Fixpoint cls_mem (k : cls) (c : N) : bool :=
  match k with
  | CSingle d => (c =? d)%N
  | CRange lo hi => (lo <=? c)%N && (c <=? hi)%N
  | CWord => is_word_char c
  | CSpace => is_js_space c
  | CDot => negb (is_line_terminator c)
  | CUnion a b => cls_mem a c || cls_mem b c
  | CNone => false
  | CNeg a => negb (cls_mem a c)
  end.

(** A bracket [[k1 k2 ...]]. *)
Definition bracket (l : list cls) : cls := fold_right CUnion CNone l.

(** ** Regular expressions *)

Inductive re :=
  | RChar (c : N)
  | RClass (k : cls)
  | REmpty
  | RSeq (r1 r2 : re)
  | RAlt (r1 r2 : re)
  | RGroup (i : nat) (r : re)                (** capturing group number [i] *)
  | RNonCap (r : re)                         (** [(?:r)] *)
  | RRep (k : cls) (lo : nat) (hi : option nat)  (** [k{lo,hi}], greedy *)
  | RBol                                     (** [^] *)
  | REol.                                    (** [$] *)

(** A run of literal code units, such as [youtu\.be\/]. *)
Definition rlit (w : jsstr) : re := fold_right (fun c r => RSeq (RChar c) r) REmpty w.

(** Captures: group number to (start, end) positions. *)
Abbreviation caps := (gmap nat (nat * nat)).

(** A matcher continuation: position, remaining input, captures. *)
Definition cont := nat -> jsstr -> caps -> option (nat * caps).

(** The number of leading code units of [s] in class [k]. *)
Fixpoint run_len (k : cls) (s : jsstr) : nat :=
  match s with
  | [] => 0
  | c :: t => if cls_mem k c then S (run_len k t) else 0
  end.

Definition cap (hi : option nat) (n : nat) : nat :=
  match hi with Some h => Nat.min h n | None => n end.

(** RepeatMatcher for a one-unit atom: the continuation is tried after
    [n], [n-1], ..., [lo] repetitions, the longest first. *)
Fixpoint backoff (k : cont) (lo p : nat) (s : jsstr) (c : caps) (n : nat)
    : option (nat * caps) :=
  if n <? lo then None else
  match k (p + n) (drop n s) c with
  | Some x => Some x
  | None => match n with 0 => None | S n' => backoff k lo p s c n' end
  end.

(** The matcher: [m r p s c k] matches [r] at absolute position [p], where
    [s] is the input from [p] on, and passes the end state to [k]. *)
Fixpoint m (r : re) (p : nat) (s : jsstr) (c : caps) (k : cont) : option (nat * caps) :=
  match r with
  | RChar ch =>
      match s with x :: t => if (x =? ch)%N then k (S p) t c else None | [] => None end
  | RClass cl =>
      match s with x :: t => if cls_mem cl x then k (S p) t c else None | [] => None end
  | REmpty => k p s c
  | RSeq r1 r2 => m r1 p s c (fun p' s' c' => m r2 p' s' c' k)
  | RAlt r1 r2 =>
      match m r1 p s c k with Some x => Some x | None => m r2 p s c k end
  | RGroup i r1 => m r1 p s c (fun p' s' c' => k p' s' (<[i := (p, p')]> c'))
  | RNonCap r1 => m r1 p s c k
  | RRep cl lo hi => backoff k lo p s c (cap hi (run_len cl s))
  | RBol => if p =? 0 then k p s c else None
  | REol => match s with [] => k p s c | _ :: _ => None end
  end.

(** The continuation of a whole match. *)
Definition final : cont := fun p _ c => Some (p, c).

Record match_result := { mr_index : nat; mr_end : nat; mr_caps : caps }.

(** RegExpBuiltinExec's loop: try positions [p], [p+1], ..., the end of
    the input included. *)
Fixpoint scan (r : re) (p : nat) (s : jsstr) : option match_result :=
  match m r p s ∅ final with
  | Some (e, c) => Some {| mr_index := p; mr_end := e; mr_caps := c |}
  | None => match s with [] => None | _ :: t => scan r (S p) t end
  end.

(** [s.match(r)] / [r.exec(s)] for a regex without the [g] flag. *)
Definition exec (r : re) (s : jsstr) : option match_result := scan r 0 s.

(** [s.slice(i, j)]. *)
Definition slice (s : jsstr) (i j : nat) : jsstr := take (j - i) (drop i s).

(** [match[i]]: [None] is [undefined], a group that did not participate. *)
Definition group (s : jsstr) (mr : match_result) (i : nat) : option jsstr :=
  (fun '(a, b) => slice s a b) <$> mr_caps mr !! i.

(** [s.replace(r, rep)] for a global [r] and a replacement without [$]:
    each match from the last index on is replaced; after an empty match
    the last index advances by one code unit.  [fuel] bounds the number
    of matches; [replace_all] gives one more than the input length. *)
Fixpoint replace_from (fuel : nat) (r : re) (rep : jsstr) (p : nat) (s : jsstr) : jsstr :=
  match fuel with
  | 0 => s
  | S f =>
      match scan r p s with
      | None => s
      | Some mr =>
          let q := mr_index mr in
          let e := mr_end mr in
          take (q - p) s ++ rep ++
          (if e =? q then
             match drop (q - p) s with
             | [] => []
             | x :: t => x :: replace_from f r rep (S q) t
             end
           else replace_from f r rep e (drop (e - p) s))
      end
  end.

Definition replace_all (r : re) (rep : jsstr) (s : jsstr) : jsstr :=
  replace_from (S (length s)) r rep 0 s.

(** ** Computing the matcher *)

(** One layer of the matcher, for rewriting without unfolding the rest. *)
Lemma m_RSeq r1 r2 p s c k :
  m (RSeq r1 r2) p s c k = m r1 p s c (fun p' s' c' => m r2 p' s' c' k).
Proof. reflexivity. Qed.

Lemma m_RAlt r1 r2 p s c k :
  m (RAlt r1 r2) p s c k = match m r1 p s c k with Some x => Some x | None => m r2 p s c k end.
Proof. reflexivity. Qed.

Lemma m_RGroup i r p s c k :
  m (RGroup i r) p s c k = m r p s c (fun p' s' c' => k p' s' (<[i := (p, p')]> c')).
Proof. reflexivity. Qed.

Lemma m_RNonCap r p s c k : m (RNonCap r) p s c k = m r p s c k.
Proof. reflexivity. Qed.

Lemma m_RChar ch p s c k :
  m (RChar ch) p s c k =
  match s with x :: t => if (x =? ch)%N then k (S p) t c else None | [] => None end.
Proof. reflexivity. Qed.

Lemma m_RBol p s c k : m RBol p s c k = if p =? 0 then k p s c else None.
Proof. reflexivity. Qed.

Lemma m_RRep cl lo hi p s c k :
  m (RRep cl lo hi) p s c k = backoff k lo p s c (cap hi (run_len cl s)).
Proof. reflexivity. Qed.

Create Rewrite HintDb regex.
#[export] Hint Rewrite m_RSeq m_RAlt m_RGroup m_RNonCap : regex.

Lemma m_rlit w : forall p s c k,
  m (rlit w) p s c k =
  if prefixb w s then k (p + length w) (drop (length w) s) c else None.
Proof.
  induction w as [|a w IH]; intros p s c k; simpl.
  - by rewrite Nat.add_0_r.
  - destruct s as [|x t]; [done|]. simpl.
    rewrite (N.eqb_sym a x). destruct (x =? a)%N; simpl; [|done].
    rewrite IH. by replace (S p + length w) with (p + S (length w)) by lia.
Qed.

Lemma backoff_below k lo p s c n : n < lo -> backoff k lo p s c n = None.
Proof.
  intros H. destruct n; simpl.
  - destruct (Nat.ltb_spec 0 lo); [done|lia].
  - destruct (Nat.ltb_spec (S n) lo); [done|lia].
Qed.

Lemma backoff_at_lo k lo p s c : backoff k lo p s c lo = k (p + lo) (drop lo s) c.
Proof.
  destruct lo as [|lo]; simpl; [by destruct (k _ _ _)|].
  rewrite Nat.ltb_irrefl. destruct (k _ _ _); [done|].
  by rewrite backoff_below by lia.
Qed.

(** [k{n}]: exactly [n] members of the class, no back-off possible. *)
Lemma m_rep_exact cl n p s c k :
  m (RRep cl n (Some n)) p s c k =
  if n <=? run_len cl s then k (p + n) (drop n s) c else None.
Proof.
  simpl. unfold cap. destruct (Nat.leb_spec n (run_len cl s)).
  - rewrite Nat.min_l by done. apply backoff_at_lo.
  - rewrite Nat.min_r by lia. apply backoff_below. done.
Qed.

#[export] Hint Rewrite m_rlit m_rep_exact : regex.

(** The class run, read as a statement on a prefix of the input. *)
Lemma run_len_ge cl s n :
  n <= run_len cl s <-> n <= length s /\ forallb (cls_mem cl) (take n s) = true.
Proof.
  revert n; induction s as [|x t IH]; intros n; simpl.
  - rewrite take_nil. simpl. split; [intros; split; [lia|done]|intros [? _]; lia].
  - destruct n as [|n]; simpl; [split; [intros; split; [lia|done]|lia]|].
    destruct (cls_mem cl x); simpl.
    + specialize (IH n). split.
      * intros Hn. assert (n <= run_len cl t) as [? ?]%IH by lia. split; [lia|done].
      * intros [? ?]. assert (n <= run_len cl t) by (apply IH; split; [lia|done]). lia.
    + split; [lia|]. intros [_ ?]; discriminate.
Qed.

Lemma run_len_app_ge cl w s :
  forallb (cls_mem cl) w = true -> length w <= run_len cl (w ++ s).
Proof.
  intros H. apply run_len_ge. rewrite length_app, take_app_length. split; [lia|done].
Qed.

(** ** [exec] is the leftmost match *)

Lemma scan_Some r s : forall p mr,
  scan r p s = Some mr <->
  p <= mr_index mr <= p + length s /\
  m r (mr_index mr) (drop (mr_index mr - p) s) ∅ final = Some (mr_end mr, mr_caps mr) /\
  (forall j, p <= j < mr_index mr -> m r j (drop (j - p) s) ∅ final = None).
Proof.
  induction s as [|x t IH]; intros p [i e c]; simpl.
  - split.
    + destruct (m r p [] ∅ final) as [[e' c']|] eqn:E; [|done].
      intros [= <- <- <-]. rewrite Nat.sub_diag. simpl. split; [lia|]. split; [done|lia].
    + intros ([? ?] & Hm & _). assert (i = p) as -> by lia.
      rewrite Nat.sub_diag in Hm. simpl in Hm. by rewrite Hm.
  - destruct (m r p (x :: t) ∅ final) as [[e' c']|] eqn:E.
    + split.
      * intros [= <- <- <-]. rewrite Nat.sub_diag. split; [lia|]. split; [done|lia].
      * intros ([? ?] & Hm & Hj). destruct (decide (i = p)) as [->|].
        -- rewrite Nat.sub_diag in Hm. simpl in Hm. congruence.
        -- specialize (Hj p ltac:(lia)). rewrite Nat.sub_diag in Hj. simpl in Hj. congruence.
    + rewrite IH. simpl. split.
      * intros ([? ?] & Hm & Hj).
        replace (i - p) with (S (i - S p)) by lia. split; [lia|]. split; [done|].
        intros j ?. destruct (decide (j = p)) as [->|].
        -- by rewrite Nat.sub_diag.
        -- replace (j - p) with (S (j - S p)) by lia. apply Hj. lia.
      * intros ([? ?] & Hm & Hj). destruct (decide (i = p)) as [->|].
        -- rewrite Nat.sub_diag in Hm. simpl in Hm. congruence.
        -- replace (i - p) with (S (i - S p)) in Hm by lia. split; [lia|]. split; [done|].
           intros j ?. specialize (Hj j ltac:(lia)).
           by replace (j - p) with (S (j - S p)) in Hj by lia.
Qed.

Lemma scan_None r s : forall p,
  scan r p s = None <->
  (forall j, p <= j <= p + length s -> m r j (drop (j - p) s) ∅ final = None).
Proof.
  induction s as [|x t IH]; intros p; simpl.
  - split.
    + destruct (m r p [] ∅ final) as [[]|] eqn:E; [done|].
      intros _ j ?. assert (j = p) as -> by lia. by rewrite Nat.sub_diag.
    + intros H. specialize (H p ltac:(lia)). rewrite Nat.sub_diag in H. simpl in H.
      by rewrite H.
  - destruct (m r p (x :: t) ∅ final) as [[e c]|] eqn:E.
    + split; [done|]. intros H. specialize (H p ltac:(lia)).
      rewrite Nat.sub_diag in H. simpl in H. congruence.
    + rewrite IH. split.
      * intros H j ?. destruct (decide (j = p)) as [->|].
        -- by rewrite Nat.sub_diag.
        -- replace (j - p) with (S (j - S p)) by lia. apply H. lia.
      * intros H j ?. specialize (H j ltac:(lia)).
        by replace (j - p) with (S (j - S p)) in H by lia.
Qed.

Lemma exec_Some r s mr :
  exec r s = Some mr <->
  mr_index mr <= length s /\
  m r (mr_index mr) (drop (mr_index mr) s) ∅ final = Some (mr_end mr, mr_caps mr) /\
  (forall j, j < mr_index mr -> m r j (drop j s) ∅ final = None).
Proof.
  unfold exec. rewrite scan_Some. rewrite Nat.sub_0_r. split.
  - intros ([_ ?] & ? & Hj). split; [lia|]. split; [done|].
    intros j ?. specialize (Hj j ltac:(lia)). by rewrite Nat.sub_0_r in Hj.
  - intros (? & ? & Hj). split; [lia|]. split; [done|].
    intros j ?. rewrite Nat.sub_0_r. apply Hj. lia.
Qed.

Lemma exec_None r s :
  exec r s = None <-> (forall j, j <= length s -> m r j (drop j s) ∅ final = None).
Proof.
  unfold exec. rewrite scan_None. split; intros H j ?.
  - specialize (H j ltac:(lia)). by rewrite Nat.sub_0_r in H.
  - rewrite Nat.sub_0_r. apply H. lia.
Qed.

(** ** Global replace with a one-code-unit class *)

Section ClassReplace.
Variable cl : cls.
Variable rep : jsstr.

Lemma scan_class_mem p x t :
  cls_mem cl x = true ->
  scan (RClass cl) p (x :: t) = Some {| mr_index := p; mr_end := S p; mr_caps := ∅ |}.
Proof. intros H. simpl. by rewrite H. Qed.

Lemma scan_class_skip p x t :
  cls_mem cl x = false -> scan (RClass cl) p (x :: t) = scan (RClass cl) (S p) t.
Proof. intros H. simpl. by rewrite H. Qed.

Lemma scan_class_shape p s mr :
  scan (RClass cl) p s = Some mr -> p <= mr_index mr /\ mr_end mr = S (mr_index mr).
Proof.
  revert p; induction s as [|x t IH]; intros p; [done|].
  destruct (cls_mem cl x) eqn:E.
  - rewrite scan_class_mem by done. intros [= <-]. simpl. lia.
  - rewrite scan_class_skip by done. intros [? ?]%IH. lia.
Qed.

Lemma replace_from_skip f p x t :
  cls_mem cl x = false ->
  replace_from (S f) (RClass cl) rep p (x :: t) =
  x :: replace_from (S f) (RClass cl) rep (S p) t.
Proof.
  intros H. cbn [replace_from]. rewrite scan_class_skip by done.
  destruct (scan (RClass cl) (S p) t) as [[q e c]|] eqn:E; [|done].
  apply scan_class_shape in E as [Hq He]. simpl in *.
  replace (q - p) with (S (q - S p)) by lia.
  replace (e - p) with (S (e - S p)) by lia. done.
Qed.

(** The per-code-unit reading of [s.replace(/[...]/g, rep)]. *)
Definition replace_units (s : jsstr) : jsstr :=
  concat (map (fun x => if cls_mem cl x then rep else [x]) s).

Lemma replace_from_class s : forall f p,
  length s < f -> replace_from f (RClass cl) rep p s = replace_units s.
Proof.
  induction s as [|x t IH]; intros [|f] p Hf; simpl in Hf; try lia; [done|].
  destruct (cls_mem cl x) eqn:E.
  - cbn [replace_from]. rewrite scan_class_mem by done. cbn -[Nat.eqb].
    rewrite Nat.sub_diag, (proj2 (Nat.eqb_neq (S p) p)) by lia.
    replace (S p - p) with 1 by lia. unfold replace_units. simpl. rewrite E.
    f_equal. apply IH. lia.
  - rewrite replace_from_skip by done. unfold replace_units.
    cbn [map concat]. rewrite E. cbn [app]. f_equal. apply IH. lia.
Qed.

Lemma replace_all_class s : replace_all (RClass cl) rep s = replace_units s.
Proof. apply replace_from_class. lia. Qed.
End ClassReplace.

(** With a one-code-unit replacement the result is a map. *)
Lemma replace_units_single cl r s :
  replace_units cl [r] s = map (fun x => if cls_mem cl x then r else x) s.
Proof.
  unfold replace_units. induction s as [|x t IH]; [done|].
  cbn [map concat]. rewrite IH. by destruct (cls_mem cl x).
Qed.

(** ** [k+$] at the end of a pattern *)

Lemma run_len_le cl s : run_len cl s <= length s.
Proof. induction s as [|x t IH]; simpl; [lia|]. destruct (cls_mem cl x); simpl; lia. Qed.

Lemma run_len_full cl s : run_len cl s = length s <-> forallb (cls_mem cl) s = true.
Proof.
  pose proof (run_len_le cl s) as Hle.
  pose proof (run_len_ge cl s (length s)) as Hge. rewrite take_ge in Hge by lia.
  split.
  - intros H'. apply Hge. lia.
  - intros H'. assert (length s <= run_len cl s) by (apply Hge; split; [lia|done]). lia.
Qed.

(** A greedy repetition followed by [$] succeeds only by taking all the
    rest of the input; [g] is what the enclosing groups do to the
    captures. *)
Lemma backoff_eol k g lo p s c n :
  n <= length s ->
  backoff (fun p' s' c' => m REol p' s' (g p' c') k) lo p s c n =
  if (lo <=? n) && (n =? length s) then k (p + n) [] (g (p + n) c) else None.
Proof.
  induction n as [|n IH]; intros Hn; cbn [backoff].
  - destruct (Nat.ltb_spec 0 lo), (Nat.leb_spec lo 0); try lia; cbn [andb]; [done|].
    rewrite drop_0, Nat.add_0_r. destruct s; cbn [m length Nat.eqb]; [|done].
    by destruct (k p [] _).
  - destruct (Nat.ltb_spec (S n) lo), (Nat.leb_spec lo (S n)); try lia; cbn [andb]; [done|].
    rewrite IH by lia.
    destruct (decide (S n = length s)) as [Hs|Hs].
    + rewrite <- Hs, Nat.eqb_refl, drop_ge by lia. cbn [m].
      destruct (k (p + S n) [] _); [done|].
      destruct (Nat.eqb_spec n (S n)); [lia|]. by rewrite andb_false_r.
    + rewrite (proj2 (Nat.eqb_neq _ _) Hs).
      destruct (drop (S n) s) eqn:E.
      * apply (f_equal length) in E. rewrite length_drop in E. simpl in E. lia.
      * cbn [m]. destruct (Nat.eqb_spec n (length s)); [lia|]. by rewrite andb_false_r.
Qed.

Lemma m_plus_eol cl g p s c k :
  m (RRep cl 1 None) p s c (fun p' s' c' => m REol p' s' (g p' c') k) =
  if (1 <=? length s) && forallb (cls_mem cl) s
  then k (p + length s) [] (g (p + length s) c) else None.
Proof.
  rewrite m_RRep. cbn [cap]. rewrite backoff_eol by apply run_len_le.
  destruct (forallb (cls_mem cl) s) eqn:Hf.
  - apply run_len_full in Hf. rewrite Hf, Nat.eqb_refl, !andb_true_r. done.
  - destruct (Nat.eqb_spec (run_len cl s) (length s)) as [E|]; [|by rewrite !andb_false_r].
    apply run_len_full in E. congruence.
Qed.
