(* ===== verification/Link.v ===== *)
(** * Link: recognising a YouTube link in a message (lines 9, 17-22)

    [YT_REGEX] is
    [/(?:youtube\.com\/watch\?v=|youtu\.be\/)([a-zA-Z0-9_-]{11})/] and the
    text handler reads [text.match(YT_REGEX)] and [match[1]].  This file
    writes the literal as a [JsRegex.re], computes the matcher on it, and
    proves that the identifier it returns is the eleven code units after
    the leftmost occurrence of one of the two URL shapes; the reference
    scanner [find_link] is the same function written without the engine. *)

From S2P Require Import Prelude JsRegex.

Module YtLink.

(** [[a-zA-Z0-9_-]] *)
Definition id_class : cls :=
  bracket [CRange 97 122; CRange 65 90; CRange 48 57; CSingle 95; CSingle 45]%N.

Definition watch_prefix : jsstr := ⟦"youtube.com/watch?v="⟧.
Definition short_prefix : jsstr := ⟦"youtu.be/"⟧.

(** Line 9. *)
Definition YT_REGEX : re :=
  RSeq (RNonCap (RAlt (rlit watch_prefix) (rlit short_prefix)))
       (RGroup 1 (RRep id_class 11 (Some 11))).

(** Lines 17 and 22: [text.match(YT_REGEX)], then [match[1]];
    [None] is the [!match] branch. *)
Definition yt_video_id (text : jsstr) : option jsstr :=
  mr ← exec YT_REGEX text; group text mr 1.

(** ** The reference scanner *)

Definition id_char (c : N) : bool := cls_mem id_class c.

(** An identifier of a link starting exactly at the head of [s]. *)
Definition link_at (s : jsstr) : option jsstr :=
  if prefixb watch_prefix s && (11 <=? run_len id_class (drop 20 s))
  then Some (take 11 (drop 20 s))
  else if prefixb short_prefix s && (11 <=? run_len id_class (drop 9 s))
  then Some (take 11 (drop 9 s))
  else None.

Fixpoint find_link (s : jsstr) : option jsstr :=
  match link_at s with
  | Some id => Some id
  | None => match s with [] => None | _ :: t => find_link t end
  end.

(** The specification: [s] starts with a URL shape and an identifier. *)
Definition is_link (s id : jsstr) : Prop :=
  exists pfx post, s = pfx ++ id ++ post /\
    (pfx = watch_prefix \/ pfx = short_prefix) /\
    length id = 11 /\ forallb id_char id = true.

(** ** Lemmas *)

Lemma length_watch_prefix : length watch_prefix = 20.
Proof. reflexivity. Qed.

Lemma length_short_prefix : length short_prefix = 9.
Proof. reflexivity. Qed.

Lemma watch_not_short r : prefixb watch_prefix (short_prefix ++ r) = false.
Proof. reflexivity. Qed.

(** The matcher on [YT_REGEX] at one position. *)
Lemma m_yt p s :
  m YT_REGEX p s ∅ final =
  if prefixb watch_prefix s && (11 <=? run_len id_class (drop 20 s))
  then Some (p + 20 + 11, <[1 := (p + 20, p + 20 + 11)]> ∅)
  else if prefixb short_prefix s && (11 <=? run_len id_class (drop 9 s))
  then Some (p + 9 + 11, <[1 := (p + 9, p + 9 + 11)]> ∅)
  else None.
Proof.
  unfold YT_REGEX. autorewrite with regex. cbv beta.
  rewrite length_watch_prefix, length_short_prefix.
  destruct (prefixb watch_prefix s), (11 <=? run_len id_class (drop 20 s)),
    (prefixb short_prefix s), (11 <=? run_len id_class (drop 9 s)); done.
Qed.

Lemma link_at_Some s id : link_at s = Some id <-> is_link s id.
Proof.
  unfold link_at, is_link. split.
  - destruct (prefixb watch_prefix s) eqn:Hw; cbn [andb].
    + destruct (Nat.leb_spec 11 (run_len id_class (drop 20 s))) as [Hr|].
      * intros [= <-]. apply prefixb_drop in Hw. rewrite length_watch_prefix in Hw.
        apply run_len_ge in Hr as [Hl Hf].
        exists watch_prefix, (drop 11 (drop 20 s)).
        rewrite take_drop, length_take. split; [done|]. split; [by left|]. split; [lia|done].
      * destruct (prefixb short_prefix s) eqn:Hs; cbn [andb]; [|done].
        apply prefixb_drop in Hw, Hs. rewrite Hs in Hw. rewrite Hw in Hs. done.
    + destruct (prefixb short_prefix s) eqn:Hs; cbn [andb]; [|done].
      destruct (Nat.leb_spec 11 (run_len id_class (drop 9 s))) as [Hr|]; [|done].
      intros [= <-]. apply prefixb_drop in Hs. rewrite length_short_prefix in Hs.
      apply run_len_ge in Hr as [Hl Hf].
      exists short_prefix, (drop 11 (drop 9 s)).
      rewrite take_drop, length_take. split; [done|]. split; [by right|]. split; [lia|done].
  - intros (pfx & post & -> & [-> | ->] & Hl & Hf).
    + rewrite prefixb_app. cbn [andb].
      rewrite (drop_app_length' watch_prefix) by reflexivity.
      pose proof (run_len_app_ge id_class id post Hf) as Hr. rewrite Hl in Hr.
      apply Nat.leb_le in Hr. rewrite Hr. f_equal.
      rewrite <- Hl. apply take_app_length.
    + rewrite watch_not_short, prefixb_app. cbn [andb].
      rewrite (drop_app_length' short_prefix) by reflexivity.
      pose proof (run_len_app_ge id_class id post Hf) as Hr. rewrite Hl in Hr.
      apply Nat.leb_le in Hr. rewrite Hr. f_equal.
      rewrite <- Hl. apply take_app_length.
Qed.

Lemma link_at_None s : link_at s = None <-> forall id, ~ is_link s id.
Proof.
  split.
  - intros H id Hl. apply link_at_Some in Hl. congruence.
  - intros H. destruct (link_at s) as [id|] eqn:E; [|done].
    exfalso. apply (H id). by apply link_at_Some.
Qed.

Lemma group_at text p a :
  group text {| mr_index := p; mr_end := p + a + 11;
                mr_caps := <[1 := (p + a, p + a + 11)]> ∅ |} 1 =
  Some (take 11 (drop (p + a) text)).
Proof.
  unfold group, slice. simpl. rewrite lookup_insert_eq. simpl.
  by replace (p + a + 11 - (p + a)) with 11 by lia.
Qed.

Lemma scan_yt_find_link text s : forall p,
  s = drop p text ->
  (mr ← scan YT_REGEX p s; group text mr 1) = find_link s.
Proof.
  induction s as [|x t IH]; intros p Hs; cbn [scan find_link]; rewrite m_yt;
    unfold link_at; rewrite Hs, !drop_drop.
  all: destruct (prefixb watch_prefix _ && _); [cbn -[group]; by rewrite group_at|].
  all: destruct (prefixb short_prefix _ && _); [cbn -[group]; by rewrite group_at|].
  - done.
  - apply IH. replace (S p) with (p + 1) by lia. by rewrite <- drop_drop, <- Hs.
Qed.

Lemma find_link_spec s id :
  find_link s = Some id <->
  exists j, j <= length s /\ is_link (drop j s) id /\
    (forall i id', i < j -> ~ is_link (drop i s) id').
Proof.
  induction s as [|x t IH]; cbn [find_link].
  - destruct (link_at []) eqn:E.
    + split.
      * intros [= <-]. exists 0. split; [done|]. split; [by apply link_at_Some|lia].
      * intros (j & ? & Hl & _). assert (j = 0) as -> by (simpl in *; lia).
        apply link_at_Some in Hl. simpl in Hl. congruence.
    + split; [done|]. intros (j & ? & Hl & _). assert (j = 0) as -> by (simpl in *; lia).
      apply link_at_Some in Hl. simpl in Hl. congruence.
  - destruct (link_at (x :: t)) as [id0|] eqn:E.
    + split.
      * intros [= <-]. exists 0. split; [lia|]. split; [by apply link_at_Some|lia].
      * intros ([|j] & ? & Hl & Hi).
        -- apply link_at_Some in Hl. simpl in Hl. congruence.
        -- exfalso. apply (Hi 0 id0); [lia|]. by apply link_at_Some.
    + rewrite IH. split.
      * intros (j & ? & Hl & Hi). exists (S j). split; [simpl; lia|]. split; [done|].
        intros [|i] id' ? Hl'; [|apply (Hi i id'); [lia|done]].
        apply link_at_Some in Hl'. simpl in Hl'. congruence.
      * intros ([|j] & ? & Hl & Hi).
        -- apply link_at_Some in Hl. simpl in Hl. congruence.
        -- exists j. split; [simpl in *; lia|]. split; [done|].
           intros i id' ?. apply (Hi (S i)). lia.
Qed.

(** The engine on [YT_REGEX] and the reference scanner agree. *)
Lemma yt_video_id_scan text : yt_video_id text = find_link text.
Proof. apply scan_yt_find_link. by rewrite drop_0. Qed.

Lemma yt_video_id_iff text id :
  yt_video_id text = Some id <->
  exists j, j <= length text /\ is_link (drop j text) id /\
    (forall i id', i < j -> ~ is_link (drop i text) id').
Proof. rewrite yt_video_id_scan. apply find_link_spec. Qed.

Lemma find_link_None s : find_link s = None <-> forall j id, ~ is_link (drop j s) id.
Proof.
  induction s as [|x t IH]; cbn [find_link].
  - assert (link_at [] = None) as -> by reflexivity. split; [|done].
    intros _ j id. rewrite drop_nil. by apply link_at_None.
  - destruct (link_at (x :: t)) as [id0|] eqn:E.
    + split; [done|]. intros H. exfalso. apply (H 0 id0). by apply link_at_Some.
    + rewrite IH. split.
      * intros H [|j] id; [by apply link_at_None|apply H].
      * intros H j id. apply (H (S j)).
Qed.

Lemma yt_video_id_none_iff text :
  yt_video_id text = None <-> forall j id, ~ is_link (drop j text) id.
Proof. rewrite yt_video_id_scan. apply find_link_None. Qed.
End YtLink.

Module YtLinkFacts.
Import YtLink.

(** C26: the engine applied to [YT_REGEX] (line 17) returns the same
    identifier as the direct scanner [find_link]. *)
Theorem yt_video_id_find_link text : yt_video_id text = find_link text.
Proof. apply yt_video_id_scan. Qed.

(** C9: [text.match(YT_REGEX)[1]] is [id] exactly when a link with
    identifier [id] starts at some position [j] of the message and no link
    starts before [j]: the leftmost link wins. *)
Theorem yt_video_id_spec text id :
  yt_video_id text = Some id <->
  exists j, j <= length text /\ is_link (drop j text) id /\
    (forall i id', i < j -> ~ is_link (drop i text) id').
Proof. apply yt_video_id_iff. Qed.

(** C27: the validation branch (line 19) is taken exactly when no
    position of the message starts a link. *)
Theorem yt_video_id_None text :
  yt_video_id text = None <-> forall j id, ~ is_link (drop j text) id.
Proof. apply yt_video_id_none_iff. Qed.

(** A twelve-character identifier is cut to its first eleven characters:
    the pattern has no boundary after [{11}]. *)
Example yt_video_id_truncates :
  yt_video_id ⟦"https://youtu.be/abcdefghijkl"⟧ = Some ⟦"abcdefghijk"⟧.
Proof. vm_compute. reflexivity. Qed.

(** A watch URL whose [v] parameter is not the first one is not
    recognised. *)
Example yt_video_id_later_param :
  yt_video_id ⟦"https://www.youtube.com/watch?feature=share&v=dQw4w9WgXcQ"⟧ = None.
Proof. vm_compute. reflexivity. Qed.
End YtLinkFacts.
