(* ===== verification/Callback.v ===== *)
(** * Callback: the token that carries a pending choice (lines 27, 32-33)

    The text handler does not store the link it recognised: it writes the
    choice and the identifier into each button's callback data,
    [`video_${videoId}`] and [`audio_${videoId}`] (line 27).  Telegraf
    runs the action handler for callback data matching
    [/^(video|audio)_(.+)$/] (line 32) and the handler destructures
    [ctx.match] into [type] and [videoId] (line 33).  This file proves the
    exact language the pattern accepts and that every token the text
    handler writes decodes back to its choice and identifier. *)

From S2P Require Import Prelude JsRegex Link.

Module Token.

Inductive kind := Video | Audio.

#[export] Instance kind_eq_dec : EqDecision kind.
Proof. solve_decision. Defined.

Definition kind_str (k : kind) : jsstr :=
  match k with Video => ⟦"video"⟧ | Audio => ⟦"audio"⟧ end.

(** Line 27. *)
Definition callback_data (k : kind) (videoId : jsstr) : jsstr :=
  kind_str k ++ ⟦"_"⟧ ++ videoId.

(** Line 32: [/^(video|audio)_(.+)$/]. *)
Definition ACTION_REGEX : re :=
  RSeq RBol
    (RSeq (RGroup 1 (RAlt (rlit ⟦"video"⟧) (rlit ⟦"audio"⟧)))
      (RSeq (RChar 95) (RSeq (RGroup 2 (RRep CDot 1 None)) REol))).

(** Line 33: [const [, type, videoId] = ctx.match]; [None] means the
    trigger does not match and the handler is not run. *)
Definition parse_action (data : jsstr) : option (jsstr * jsstr) :=
  mr ← exec ACTION_REGEX data;
  type ← group data mr 1;
  videoId ← group data mr 2;
  Some (type, videoId).

(** Code units that [.] accepts: all but the line terminators. *)
Definition dot_free (v : jsstr) : bool := forallb (cls_mem CDot) v.

(** ** Computing the pattern *)

Lemma m_action_pos p s : 0 < p -> m ACTION_REGEX p s ∅ final = None.
Proof. intros Hp. unfold ACTION_REGEX. rewrite m_RSeq, m_RBol. by destruct p; [lia|]. Qed.

Definition caps_of (n : nat) : caps := <[2 := (6, n)]> (<[1 := (0, 5)]> ∅).

(** The tail after a matched keyword: [_] and at least one dot code unit
    up to the end. *)
Definition token_tail (d : jsstr) : option (nat * caps) :=
  match drop 5 d with
  | x :: v => if (x =? 95)%N && (1 <=? length v) && dot_free v
              then Some (length d, caps_of (length d)) else None
  | [] => None
  end.

Lemma length_tail (d : jsstr) (x : N) (v : jsstr) : drop 5 d = x :: v -> length d = 6 + length v.
Proof.
  intros E. apply (f_equal (@length N)) in E. rewrite length_drop in E. simpl in E. lia.
Qed.

Lemma m_action_0 (d : jsstr) :
  m ACTION_REGEX 0 d ∅ final =
  if prefixb ⟦"video"⟧ d then token_tail d
  else if prefixb ⟦"audio"⟧ d then token_tail d else None.
Proof.
  unfold ACTION_REGEX. rewrite m_RSeq, m_RBol. cbv beta. cbn [Nat.eqb].
  rewrite m_RSeq, m_RGroup, m_RAlt, !m_rlit. cbv beta.
  assert (forall w : jsstr, length w = 5 ->
    m (RSeq (RChar 95) (RSeq (RGroup 2 (RRep CDot 1 None)) REol)) (0 + length w)
      (drop (length w) d) (<[1 := (0, 0 + length w)]> ∅) final = token_tail d) as Ht.
  { intros w ->. unfold token_tail. rewrite m_RSeq, m_RChar.
    destruct (drop 5 d) as [|x v] eqn:E; [done|].
    destruct (x =? 95)%N; cbn [andb]; [|done].
    rewrite m_RSeq, m_RGroup. cbv beta.
    rewrite (m_plus_eol CDot (fun p' c' => <[2 := (6, p')]> c')).
    rewrite (length_tail d x v E). unfold dot_free.
    destruct ((1 <=? length v) && forallb (cls_mem CDot) v); [|done].
    unfold final, caps_of. done. }
  rewrite !Ht by reflexivity.
  destruct (prefixb ⟦"video"⟧ d) eqn:Hv.
  - destruct (token_tail d); [done|].
    destruct (prefixb ⟦"audio"⟧ d) eqn:Ha; [|done].
    apply prefixb_drop in Hv, Ha. rewrite Ha in Hv. discriminate.
  - by destruct (prefixb ⟦"audio"⟧ d).
Qed.

Lemma exec_action (d : jsstr) :
  exec ACTION_REGEX d =
  (fun '(e, c) => {| mr_index := 0; mr_end := e; mr_caps := c |}) <$>
    m ACTION_REGEX 0 d ∅ final.
Proof.
  unfold exec. destruct d as [|x t]; cbn [scan].
  - by destruct (m ACTION_REGEX 0 [] ∅ final) as [[]|].
  - destruct (m ACTION_REGEX 0 (x :: t) ∅ final) as [[]|]; [done|].
    simpl. apply scan_None. intros j ?. apply m_action_pos. lia.
Qed.

Lemma group_caps_of (d : jsstr) :
  group d {| mr_index := 0; mr_end := length d; mr_caps := caps_of (length d) |} 1
    = Some (take 5 d) /\
  group d {| mr_index := 0; mr_end := length d; mr_caps := caps_of (length d) |} 2
    = Some (drop 6 d).
Proof.
  unfold group, slice, caps_of. simpl. rewrite lookup_insert_ne, !lookup_insert_eq by done.
  simpl. rewrite drop_0. split; [done|]. rewrite take_ge; [done|].
  rewrite length_drop. lia.
Qed.

(** The decoding of a token whose keyword [w] has already been read. *)
Lemma parse_tail (d w : jsstr) :
  prefixb w d = true -> length w = 5 ->
  forall t v, (mr ← (fun '(e, c) => {| mr_index := 0; mr_end := e; mr_caps := c |})
                  <$> token_tail d;
               type ← group d mr 1; videoId ← group d mr 2; Some (type, videoId))
              = Some (t, v) <->
  t = w /\ v <> [] /\ dot_free v = true /\ d = w ++ ⟦"_"⟧ ++ v.
Proof.
  intros Hw Hl t v. apply prefixb_drop in Hw. rewrite Hl in Hw.
  rewrite lit_underscore. unfold token_tail.
  destruct (drop 5 d) as [|x v'] eqn:E.
  - simpl. split; [done|]. intros (_ & _ & _ & Hd).
    rewrite Hd, drop_app_length' in E by done. discriminate.
  - destruct ((x =? 95)%N && (1 <=? length v') && dot_free v') eqn:Hc.
    + apply andb_true_iff in Hc as [[Hx%N.eqb_eq Hv]%andb_true_iff Hd].
      apply Nat.leb_le in Hv. subst x.
      assert (take 5 d = w /\ drop 6 d = v') as [Ht Hd6].
      { rewrite Hw. split; [by apply take_app_length'|].
        replace 6 with (length w + 1) by lia. by rewrite <- drop_drop, drop_app_length. }
      simpl. destruct (group_caps_of d) as [-> ->]. rewrite Ht, Hd6. simpl. split.
      * intros [= <- <-]. split; [done|]. split; [destruct v'; simpl in *; [lia|done]|].
        split; [done|]. by rewrite Hw.
      * intros (-> & _ & _ & Hd'). rewrite Hd', drop_app_length' in E by done.
        by injection E as ->.
    + simpl. split; [done|]. intros (-> & Hne & Hdot & Hd').
      rewrite Hd', drop_app_length' in E by done. simpl in E. injection E as <- <-.
      destruct v as [|y v]; [done|]. rewrite Hdot, N.eqb_refl in Hc. discriminate.
Qed.
Lemma parse_action_iff d t v :
  parse_action d = Some (t, v) <->
  (t = ⟦"video"⟧ \/ t = ⟦"audio"⟧) /\ v <> [] /\ dot_free v = true /\
  d = t ++ ⟦"_"⟧ ++ v.
Proof.
  unfold parse_action. rewrite exec_action, m_action_0.
  destruct (prefixb ⟦"video"⟧ d) eqn:Hv; cbv iota.
  - rewrite parse_tail by done. split.
    + intros (-> & ?). eauto.
    + intros ([-> | ->] & ? & ? & Hd); [done|]. by rewrite Hd in Hv.
  - destruct (prefixb ⟦"audio"⟧ d) eqn:Ha; cbv iota.
    + rewrite parse_tail by done. split.
      * intros (-> & ?). eauto.
      * intros ([-> | ->] & ? & ? & Hd); [|done]. by rewrite Hd in Ha.
    + split; [done|]. intros ([-> | ->] & _ & _ & ->); by rewrite prefixb_app in *.
Qed.

Lemma parse_callback_data k v :
  v <> [] -> dot_free v = true ->
  parse_action (callback_data k v) = Some (kind_str k, v).
Proof.
  intros Hne Hd. apply parse_action_iff.
  split; [by destruct k; [left|right]|]. done.
Qed.

Lemma id_char_dot c : YtLink.id_char c = true -> cls_mem CDot c = true.
Proof.
  unfold YtLink.id_char, YtLink.id_class. simpl.
  rewrite !orb_false_r, !orb_true_iff, !andb_true_iff, !N.leb_le, !N.eqb_eq.
  intros H. apply negb_true_iff. unfold is_line_terminator.
  rewrite !orb_false_iff, !N.eqb_neq. lia.
Qed.

(** Every token the text handler writes decodes back. *)
Lemma link_token_roundtrip text id k :
  YtLink.yt_video_id text = Some id ->
  parse_action (callback_data k id) = Some (kind_str k, id).
Proof.
  intros H. apply YtLink.yt_video_id_iff in H
    as (j & _ & (pfx & post & _ & _ & Hl & Hf) & _).
  apply parse_callback_data.
  - intros ->. discriminate.
  - unfold dot_free. apply forallb_forall. intros c Hc%list_elem_of_In.
    apply id_char_dot. by eapply forallb_forall; [exact Hf|apply list_elem_of_In].
Qed.
(** An identifier the text handler extracts: eleven code units of
    [[a-zA-Z0-9_-]]. *)
Lemma link_id_shape text id :
  YtLink.yt_video_id text = Some id -> length id = 11 /\ forallb YtLink.id_char id = true.
Proof.
  intros (j & _ & (pfx & post & _ & _ & Hl & Hf) & _)%YtLink.yt_video_id_iff. done.
Qed.

Lemma id_char_ascii c : YtLink.id_char c = true -> (c <? 0x80)%N = true.
Proof.
  unfold YtLink.id_char, YtLink.id_class. simpl.
  rewrite !orb_false_r, !orb_true_iff, !andb_true_iff, !N.leb_le, !N.eqb_eq, N.ltb_lt. lia.
Qed.

Lemma kind_str_ascii k : forallb (fun c => c <? 0x80)%N (kind_str k ++ ⟦"_"⟧) = true.
Proof. by destruct k. Qed.
End Token.

Module TokenFacts.
Import Token.

(** C12: the action handler runs with [(type, videoId)] exactly for the
    callback data [type ++ "_" ++ videoId] where [type] is [video] or
    [audio] and [videoId] is a non-empty string without line terminators;
    no other data reaches it. *)
Theorem parse_action_spec d t v :
  parse_action d = Some (t, v) <->
  (t = ⟦"video"⟧ \/ t = ⟦"audio"⟧) /\ v <> [] /\ dot_free v = true /\
  d = t ++ ⟦"_"⟧ ++ v.
Proof. apply parse_action_iff. Qed.

(** C10: the state of a pending choice survives the round trip through
    Telegram: for every identifier the text handler extracts, both buttons'
    tokens decode to the choice and to that identifier. *)
Theorem token_roundtrip text id k :
  YtLink.yt_video_id text = Some id ->
  parse_action (callback_data k id) = Some (kind_str k, id).
Proof. apply link_token_roundtrip. Qed.

Lemma token_roundtrip_witness :
  YtLink.yt_video_id ⟦"https://youtu.be/dQw4w9WgXcQ"⟧ = Some ⟦"dQw4w9WgXcQ"⟧ /\
  parse_action (callback_data Audio ⟦"dQw4w9WgXcQ"⟧) = Some (⟦"audio"⟧, ⟦"dQw4w9WgXcQ"⟧).
Proof.
  split; [vm_compute; reflexivity|].
  apply (token_roundtrip ⟦"https://youtu.be/dQw4w9WgXcQ"⟧). vm_compute. reflexivity.
Defined.

(** C11: the Bot API accepts callback data of 1 to 64 bytes.  For every
    identifier the text handler extracts, each button's data
    [video_<id>] or [audio_<id>] is exactly 17 bytes in UTF-8, within
    that bound, so the prompt of line 24 is never rejected for its
    buttons. *)
Theorem callback_data_size text id k :
  YtLink.yt_video_id text = Some id ->
  utf8_len (callback_data k id) = 17 /\ 1 <= utf8_len (callback_data k id) <= 64.
Proof.
  intros [Hl Hf]%link_id_shape. unfold callback_data. rewrite app_assoc.
  rewrite utf8_len_app_ascii, utf8_len_ascii by
    (try apply kind_str_ascii; apply forallb_forall; intros c Hc;
     apply id_char_ascii; eapply forallb_forall; eauto).
  rewrite length_app, Hl. destruct k; simpl; lia.
Qed.

Lemma callback_data_size_witness :
  YtLink.yt_video_id ⟦"https://youtu.be/dQw4w9WgXcQ"⟧ = Some ⟦"dQw4w9WgXcQ"⟧ /\
  utf8_len (callback_data Video ⟦"dQw4w9WgXcQ"⟧) = 17 /\
  1 <= utf8_len (callback_data Video ⟦"dQw4w9WgXcQ"⟧) <= 64.
Proof.
  split; [vm_compute; reflexivity|].
  apply (callback_data_size ⟦"https://youtu.be/dQw4w9WgXcQ"⟧). vm_compute. reflexivity.
Defined.

(** The pattern does not re-check the identifier: any data of the right
    shape reaches the handler, e.g. one naming a path outside the
    working directory. *)
Example parse_action_unvalidated :
  parse_action ⟦"audio_x/../../../tmp/y"⟧ = Some (⟦"audio"⟧, ⟦"x/../../../tmp/y"⟧).
Proof. vm_compute. reflexivity. Qed.
End TokenFacts.
