(* ===== verification/Title.v ===== *)
(** * Title: the caption sanitiser (line 44)

    [info.videoDetails.title.replace(/[^\w\s.-]/gi, '_')] replaces, one
    code unit at a time, everything that is not an ASCII word character,
    a JS white space or line terminator, [.] or [-] by [_].  This file
    reads the line through the generic global replace of [JsRegex], proves
    it equal to a per-code-unit map, and derives idempotence, length
    preservation and the shape of the output.  A character outside the
    BMP is two code units, so it becomes two underscores. *)

From S2P Require Import Prelude JsRegex.

Module Title.

(** [[^\w\s.-]] *)
Definition TITLE_CLASS : cls := CNeg (bracket [CWord; CSpace; CSingle 46; CSingle 45]%N).

(** The regex of line 44, with the [g] flag; see the root file for the
    [i] flag. *)
Definition TITLE_REGEX : re := RClass TITLE_CLASS.

(** Line 44. *)
Definition sanitize_title (title : jsstr) : jsstr := replace_all TITLE_REGEX ⟦"_"⟧ title.

(** The per-code-unit reading. *)
Definition clean_unit (c : N) : N := if cls_mem TITLE_CLASS c then 95%N else c.

Definition kept (c : N) : bool := negb (cls_mem TITLE_CLASS c).

Lemma kept_underscore : kept 95 = true.
Proof. reflexivity. Qed.

Lemma clean_unit_kept c : kept (clean_unit c) = true.
Proof.
  unfold clean_unit. destruct (cls_mem TITLE_CLASS c) eqn:E; [done|].
  unfold kept. by rewrite E.
Qed.

Lemma clean_unit_id c : kept c = true -> clean_unit c = c.
Proof. unfold kept, clean_unit. by destruct (cls_mem TITLE_CLASS c). Qed.

Lemma sanitize_title_units t : sanitize_title t = map clean_unit t.
Proof.
  unfold sanitize_title, TITLE_REGEX.
  by rewrite replace_all_class, lit_underscore, replace_units_single.
Qed.

Lemma sanitize_title_all_kept t : forallb kept (sanitize_title t) = true.
Proof.
  rewrite sanitize_title_units. apply forallb_forall. intros c Hc%list_elem_of_In.
  apply list_elem_of_fmap in Hc as (x & -> & _). apply clean_unit_kept.
Qed.

(** A title made only of kept code units is unchanged. *)
Lemma sanitize_title_id t : forallb kept t = true -> sanitize_title t = t.
Proof.
  intros H. rewrite sanitize_title_units. rewrite <- (map_id t) at 2.
  apply map_ext_in. intros c Hc. apply clean_unit_id.
  rewrite forallb_forall in H. by apply H.
Qed.

#[export] Hint Resolve clean_unit_kept kept_underscore sanitize_title_all_kept : js.
End Title.

Module TitleFacts.
Import Title.

(** C23: the global replace of line 44 is the map [clean_unit] over the
    code units of the title: each code unit in the class becomes [_], the
    others are kept, in order. *)
Theorem sanitize_title_map t : sanitize_title t = map clean_unit t.
Proof. apply sanitize_title_units. Qed.

(** C25: every code unit of a sanitised title is a word character, a
    white space, [.] or [-]. *)
Theorem sanitize_title_kept t : forallb kept (sanitize_title t) = true.
Proof. apply sanitize_title_all_kept. Qed.

(** C24: sanitising twice is sanitising once (spec, section 8). *)
Theorem sanitize_title_idempotent t :
  sanitize_title (sanitize_title t) = sanitize_title t.
Proof. apply sanitize_title_id, sanitize_title_all_kept. Qed.

Lemma sanitize_title_length t : length (sanitize_title t) = length t.
Proof. by rewrite sanitize_title_units, length_map. Qed.

(** An emoji outside the BMP (U+1F3B5, the surrogate pair D83C DFB5) is
    replaced by two underscores, not one. *)
Example sanitize_title_astral :
  sanitize_title (⟦"Song "⟧ ++ [0xD83C; 0xDFB5]%N) = ⟦"Song __"⟧.
Proof. vm_compute. reflexivity. Qed.
End TitleFacts.
