(* ===== verification/Paths.v ===== *)
(** * Paths: the temporary file of an invocation (lines 46-50)

    [tempFileName] is [audio-<id>.mp3] when [type === 'audio'] and
    [video-<id>.mp4] otherwise, and the path is
    [path.join(__dirname, tempFileName)].  [path.join] is Node's POSIX
    join: the arguments joined by [/] and normalised segment by segment
    ([.] and empty segments dropped, [..] removing the previous segment,
    never above the root of an absolute path).  The lemmas show that for
    an identifier without [/] the path is the file name directly inside
    [__dirname], and that it determines the pair (type, identifier). *)

From S2P Require Import Prelude JsRegex Link.

Module TempPath.

Definition slash : N := 47.

(** [s.split('/')]. *)
Fixpoint split_on (sep : N) (s : jsstr) : list jsstr :=
  match s with
  | [] => [[]]
  | x :: t =>
      if (x =? sep)%N then [] :: split_on sep t
      else match split_on sep t with
           | seg :: rest => (x :: seg) :: rest
           | [] => [[x]]
           end
  end.

(** [segs.join(sep)]. *)
Fixpoint join_with (sep : N) (segs : list jsstr) : jsstr :=
  match segs with
  | [] => []
  | [s] => s
  | s :: rest => s ++ [sep] ++ join_with sep rest
  end.

(** One step of Node's [normalizeString] on the reversed stack of kept
    segments; [above] allows [..] to climb above the start (relative
    paths). *)
Definition seg_step (above : bool) (acc : list jsstr) (seg : jsstr) : list jsstr :=
  if decide (seg = []) then acc
  else if decide (seg = ⟦"."⟧) then acc
  else if decide (seg = ⟦".."⟧) then
    match acc with
    | top :: rest => if decide (top = ⟦".."⟧) then ⟦".."⟧ :: acc else rest
    | [] => if above then [⟦".."⟧] else []
    end
  else seg :: acc.

Definition norm_segs (above : bool) (p : jsstr) : list jsstr :=
  rev (fold_left (seg_step above) (split_on slash p) []).

(** [path.posix.normalize]. *)
Definition normalize (p : jsstr) : jsstr :=
  match p with
  | [] => ⟦"."⟧
  | c :: _ =>
      let abs := (c =? slash)%N in
      let trailing := match last p with Some l => (l =? slash)%N | None => false end in
      let body := join_with slash (norm_segs (negb abs) p) in
      match body with
      | [] => if abs then ⟦"/"⟧ else if trailing then ⟦"./"⟧ else ⟦"."⟧
      | _ => (if abs then [slash] else []) ++ body ++ (if trailing then [slash] else [])
      end
  end.

(** [path.join(a, b)] for two non-empty arguments. *)
Definition path_join (a b : jsstr) : jsstr := normalize (a ++ [slash] ++ b).

(** Lines 46-49: [type === 'audio' ? `audio-${videoId}.mp3` : `video-${videoId}.mp4`]. *)
Definition tempFileName (type videoId : jsstr) : jsstr :=
  if decide (type = ⟦"audio"⟧) then ⟦"audio-"⟧ ++ videoId ++ ⟦".mp3"⟧
  else ⟦"video-"⟧ ++ videoId ++ ⟦".mp4"⟧.

(** Line 50. *)
Definition filePath (dirname type videoId : jsstr) : jsstr :=
  path_join dirname (tempFileName type videoId).

(** [path.normalize] never returns the empty string. *)
Lemma normalize_not_nil p : normalize p <> [].
Proof.
  unfold normalize. destruct p as [|c t]; [discriminate|].
  destruct (join_with _ _) as [|x b]; [by repeat case_match|].
  intros H. apply (f_equal (@length N)) in H. rewrite !length_app in H. simpl in H. lia.
Qed.

Lemma filePath_not_nil d type videoId : filePath d type videoId <> [].
Proof. apply normalize_not_nil. Qed.

(** A segment that normalisation keeps as it is. *)
Definition plain_seg (s : jsstr) : Prop :=
  s <> [] /\ s <> ⟦"."⟧ /\ s <> ⟦".."⟧ /\ slash ∉ s.

(** A normalised absolute directory: [/s1/s2/.../sn], n >= 1. *)
Definition abs_dir (d : jsstr) : Prop :=
  exists segs, segs <> [] /\ Forall plain_seg segs /\ d = [slash] ++ join_with slash segs.

(** ** Splitting and joining *)

Lemma split_on_not_nil sep s : split_on sep s <> [].
Proof.
  destruct s as [|x t]; simpl; [done|].
  destruct (x =? sep)%N; [done|]. by destruct (split_on sep t).
Qed.

Lemma split_on_app_sep sep a b :
  split_on sep (a ++ sep :: b) = split_on sep a ++ split_on sep b.
Proof.
  induction a as [|x a IH]; simpl.
  - by rewrite N.eqb_refl.
  - rewrite IH. destruct (x =? sep)%N; [done|].
    destruct (split_on sep a) eqn:E; [by apply split_on_not_nil in E|done].
Qed.

Lemma split_on_single sep s : sep ∉ s -> split_on sep s = [s].
Proof.
  induction s as [|x t IH]; intros Hs; simpl; [done|].
  apply not_elem_of_cons in Hs as [Hx Ht].
  rewrite (proj2 (N.eqb_neq x sep)) by done. by rewrite IH.
Qed.

Lemma split_join sep segs :
  segs <> [] -> Forall (fun s => sep ∉ s) segs -> split_on sep (join_with sep segs) = segs.
Proof.
  induction segs as [|s [|s2 rest] IH]; intros Hne Hf; [done| |].
  - inversion Hf. by apply split_on_single.
  - inversion Hf; subst. change (join_with sep (s :: s2 :: rest))
      with (s ++ sep :: join_with sep (s2 :: rest)).
    rewrite split_on_app_sep, split_on_single by done. rewrite IH; done.
Qed.

Lemma join_with_cons sep s segs :
  segs <> [] -> join_with sep (s :: segs) = s ++ sep :: join_with sep segs.
Proof. by destruct segs. Qed.

Lemma join_with_snoc sep segs x :
  segs <> [] -> join_with sep (segs ++ [x]) = join_with sep segs ++ sep :: x.
Proof.
  induction segs as [|s rest IH]; intros Hne; [done|].
  destruct (decide (rest = [])) as [->|Hr]; [done|].
  rewrite <- app_comm_cons, !join_with_cons by (done || by destruct rest).
  rewrite IH by done. by rewrite <- app_assoc.
Qed.

Lemma fold_plain above segs acc :
  Forall plain_seg segs -> fold_left (seg_step above) segs acc = rev segs ++ acc.
Proof.
  revert acc; induction segs as [|s segs IH]; intros acc Hf; [done|].
  inversion Hf as [|? ? (Hne & Hd & Hdd & _) Hr]; subst. simpl.
  unfold seg_step at 2. rewrite !decide_False by done.
  rewrite IH by done. by rewrite <- app_assoc.
Qed.

(** ** The temporary file name *)

Lemma tempFileName_plain type videoId :
  slash ∉ videoId -> plain_seg (tempFileName type videoId).
Proof.
  intros Hs. unfold tempFileName.
  case_decide; (split; [|split; [|split]]);
    try (intros Heq; apply (f_equal length) in Heq; rewrite !length_app in Heq; simpl in Heq; lia).
  all: rewrite !elem_of_app; intros [Hx|[Hx|Hx]]; [| by apply Hs |];
       repeat (apply elem_of_cons in Hx as [Hx|Hx]; [discriminate|]); by apply elem_of_nil in Hx.
Qed.

Lemma tempFileName_last type videoId :
  exists l, last (tempFileName type videoId) = Some l /\ l <> slash.
Proof.
  unfold tempFileName. case_decide; rewrite !last_app; simpl; eexists; done.
Qed.
(** For a plain identifier, [path.join] of line 50 only inserts the
    separator. *)
Lemma filePath_plain d type videoId :
  abs_dir d -> slash ∉ videoId ->
  filePath d type videoId = d ++ [slash] ++ tempFileName type videoId.
Proof.
  intros (segs & Hne & Hplain & ->) Hs. unfold filePath, path_join, normalize.
  pose proof (tempFileName_plain type videoId Hs) as Hn.
  destruct (tempFileName_last type videoId) as (l & Hl & Hls).
  remember (tempFileName type videoId) as name eqn:Hname.
  cbn [app]. rewrite N.eqb_refl. cbn [negb].
  assert (last (slash :: join_with slash segs ++ slash :: name) = Some l) as ->
    by (rewrite app_comm_cons, last_app, last_cons, Hl; done).
  rewrite (proj2 (N.eqb_neq l slash)) by done.
  assert (norm_segs false (slash :: join_with slash segs ++ slash :: name) = segs ++ [name])
    as ->.
  { unfold norm_segs.
    change (slash :: join_with slash segs ++ slash :: name)
      with ([] ++ slash :: (join_with slash segs ++ slash :: name)).
    rewrite !split_on_app_sep, split_join, (split_on_single slash name).
    - cbn [split_on app fold_left]. unfold seg_step at 2. rewrite decide_True by done.
      rewrite fold_plain by (apply Forall_app; split; [done|by constructor]).
      by rewrite app_nil_r, rev_involutive.
    - by destruct Hn as (_ & _ & _ & ?).
    - done.
    - eapply Forall_impl; [exact Hplain|]. by intros ? (_ & _ & _ & ?). }
  rewrite join_with_snoc by done.
  destruct (join_with slash segs ++ slash :: name) eqn:E.
  - destruct (join_with slash segs); discriminate.
  - rewrite <- E. by rewrite app_nil_r.
Qed.

End TempPath.

Module TempPathFacts.
Import TempPath.

(** C28: for an identifier without [/], [path.join] of line 50 adds
    nothing: the temporary file is [__dirname/<tempFileName>], directly
    inside the bot's directory. *)
Theorem filePath_inside d type videoId :
  abs_dir d -> slash ∉ videoId ->
  filePath d type videoId = d ++ [slash] ++ tempFileName type videoId.
Proof. apply filePath_plain. Qed.

(** C29: for identifiers without [/], two invocations share a temporary
    file exactly when they have the same identifier and both or neither
    chose audio: the path is keyed on the pair and nothing else. *)
Theorem filePath_inj d t1 t2 id1 id2 :
  abs_dir d -> slash ∉ id1 -> slash ∉ id2 ->
  filePath d t1 id1 = filePath d t2 id2 <->
  bool_decide (t1 = ⟦"audio"⟧) = bool_decide (t2 = ⟦"audio"⟧) /\ id1 = id2.
Proof.
  intros Hd H1 H2. rewrite !filePath_plain by done. split.
  - intros E. apply app_inv_head in E. injection E as E. unfold tempFileName in E.
    do 2 case_decide; simplify_eq.
    + apply app_inv_tail in E. by rewrite !bool_decide_true.
    + apply app_inv_tail in E. by rewrite !bool_decide_false.
  - intros [Hb ->]. unfold tempFileName.
    do 2 case_decide; try done; rewrite ?bool_decide_true, ?bool_decide_false in Hb; done.
Qed.

Lemma abs_dir_srv_bot : abs_dir ⟦"/srv/bot"⟧.
Proof.
  exists [⟦"srv"⟧; ⟦"bot"⟧]. split; [done|]. split; [|reflexivity].
  repeat constructor; vm_compute; try discriminate; intros H;
    repeat (apply elem_of_cons in H as [H|H]; [discriminate|]); by apply elem_of_nil in H.
Qed.

Lemma slash_not_in_id : slash ∉ ⟦"dQw4w9WgXcQ"⟧.
Proof.
  vm_compute. intros H.
  repeat (apply elem_of_cons in H as [H|H]; [discriminate|]); by apply elem_of_nil in H.
Qed.

Lemma filePath_inside_witness :
  filePath ⟦"/srv/bot"⟧ ⟦"audio"⟧ ⟦"dQw4w9WgXcQ"⟧ =
  ⟦"/srv/bot"⟧ ++ [slash] ++ tempFileName ⟦"audio"⟧ ⟦"dQw4w9WgXcQ"⟧.
Proof. apply filePath_inside; [apply abs_dir_srv_bot|apply slash_not_in_id]. Defined.

Lemma filePath_inj_witness :
  filePath ⟦"/srv/bot"⟧ ⟦"audio"⟧ ⟦"dQw4w9WgXcQ"⟧ = filePath ⟦"/srv/bot"⟧ ⟦"audio"⟧ ⟦"dQw4w9WgXcQ"⟧ <->
  bool_decide (⟦"audio"⟧ = ⟦"audio"⟧) = bool_decide (⟦"audio"⟧ = ⟦"audio"⟧) /\
  ⟦"dQw4w9WgXcQ"⟧ = ⟦"dQw4w9WgXcQ"⟧.
Proof. apply filePath_inj; [apply abs_dir_srv_bot|apply slash_not_in_id|apply slash_not_in_id]. Defined.

Lemma id_char_not_slash c : YtLink.id_char c = true -> c <> slash.
Proof.
  unfold YtLink.id_char, YtLink.id_class, slash. simpl.
  rewrite !orb_false_r, !orb_true_iff, !andb_true_iff, !N.leb_le, !N.eqb_eq. lia.
Qed.

(** Identifiers taken from a link contain no [/]. *)
Lemma link_id_no_slash text id : YtLink.yt_video_id text = Some id -> slash ∉ id.
Proof.
  intros (j & _ & (pfx & post & _ & _ & _ & Hf) & _)%YtLink.yt_video_id_iff Hin.
  rewrite forallb_forall in Hf. apply list_elem_of_In in Hin.
  apply (id_char_not_slash slash); [by apply Hf|done].
Qed.

(** An identifier the pattern of line 32 lets through but that is not a
    link's identifier leaves the directory: [audio-dQw4w9WgXcQ&] is taken
    as a directory and the three [..] climb out of [/srv/bot]. *)
Example filePath_escapes :
  filePath ⟦"/srv/bot"⟧ ⟦"audio"⟧ ⟦"dQw4w9WgXcQ&/../../../tmp/y"⟧ = ⟦"/tmp/y.mp3"⟧.
Proof. vm_compute. reflexivity. Qed.
End TempPathFacts.
