(* ===== verification/Fs.v ===== *)
(** * Fs: the working directory through Node's [fs] module

    The action handler calls [fs.existsSync] (lines 53, 82, 86),
    [fs.unlinkSync] (lines 53, 77, 82, 86) and [fs.createWriteStream]
    (line 63), and Telegraf reads the finished file by its path (lines 73,
    75).  These calls are modelled on POSIX semantics, which is what makes
    the concurrent invocations of section 5 of the spec interfere:
    a directory maps paths to inodes, an open stream writes to its inode
    even after the path is unlinked, and opening an existing path with the
    flags ['w'] truncates and shares that path's inode.  A path holding a
    NUL code unit is invalid: [existsSync] answers [false] and the other
    calls throw.  The invariant [fs_wf] (every entry names a live inode,
    every inode number is below the allocator) is preserved by every
    operation. *)

From S2P Require Import Prelude.

Module Fs.

Abbreviation bytes := (list N).

Record fs := mkFs {
  dirents : gmap jsstr nat;   (** path -> inode *)
  inodes : gmap nat bytes;    (** inode -> contents *)
  next_ino : nat              (** the next fresh inode *)
}.

Inductive fs_error := ENOENT | EINVAL.

#[export] Instance fs_error_eq_dec : EqDecision fs_error.
Proof. solve_decision. Defined.

Definition empty_fs : fs := mkFs ∅ ∅ 0.

(** [getValidatedPath]: no NUL code unit. *)
Definition valid_path (p : jsstr) : bool := negb (bool_decide (0%N ∈ p)).

(** [fs.existsSync(p)]. *)
Definition existsSync (f : fs) (p : jsstr) : bool :=
  valid_path p && bool_decide (is_Some (dirents f !! p)).

(** [fs.unlinkSync(p)]: removes the entry, not the inode. *)
Definition unlinkSync (f : fs) (p : jsstr) : fs_error + fs :=
  if negb (valid_path p) then inl EINVAL else
  match dirents f !! p with
  | Some _ => inr (mkFs (delete p (dirents f)) (inodes f) (next_ino f))
  | None => inl ENOENT
  end.

(** [if (fs.existsSync(p)) fs.unlinkSync(p);] (lines 53, 82, 86): the
    guard makes the unlink total. *)
Definition remove_if_exists (f : fs) (p : jsstr) : fs :=
  if existsSync f p then
    match unlinkSync f p with inr f' => f' | inl _ => f end
  else f.

(** The [open(p, 'w')] of a write stream: truncate the existing file or
    create a fresh one. *)
Definition open_w (f : fs) (p : jsstr) : fs * nat :=
  match dirents f !! p with
  | Some i => (mkFs (dirents f) (<[i := []]> (inodes f)) (next_ino f), i)
  | None =>
      let i := next_ino f in
      (mkFs (<[p := i]> (dirents f)) (<[i := []]> (inodes f)) (S i), i)
  end.

(** A write through an open descriptor. *)
Definition write_ino (f : fs) (i : nat) (b : bytes) : fs :=
  mkFs (dirents f) (alter (fun c => c ++ b) i (inodes f)) (next_ino f).

(** Reading a file by its path. *)
Definition read_file (f : fs) (p : jsstr) : option bytes :=
  i ← dirents f !! p; inodes f !! i.

(** ** The invariant *)

Definition fs_wf (f : fs) : Prop :=
  (forall p i, dirents f !! p = Some i -> is_Some (inodes f !! i)) /\
  (forall i, is_Some (inodes f !! i) -> i < next_ino f).

Lemma empty_fs_wf : fs_wf empty_fs.
Proof. split; intros *; simpl; rewrite lookup_empty; intros H; [discriminate|by destruct H]. Qed.

Lemma remove_if_exists_wf f p : fs_wf f -> fs_wf (remove_if_exists f p).
Proof.
  intros [Hd Hi]. unfold remove_if_exists, unlinkSync.
  destruct (existsSync f p), (negb (valid_path p)), (dirents f !! p); try done.
  split; [|done]. intros q i. simpl. rewrite lookup_delete_Some. intros [_ ?]. eauto.
Qed.

Lemma open_w_wf f p : fs_wf f -> fs_wf (open_w f p).1.
Proof.
  intros [Hd Hi]. unfold open_w. destruct (dirents f !! p) as [i|] eqn:E; simpl; split; cbn.
  - intros q j Hq. rewrite lookup_insert_is_Some'. right. eauto.
  - intros j. rewrite lookup_insert_is_Some'. intros [<-|]; [|eauto].
    apply Hi. eauto.
  - intros q j. rewrite lookup_insert_Some. intros [[_ <-]|[_ Hq]].
    + rewrite lookup_insert_eq. eauto.
    + rewrite lookup_insert_is_Some'. right. eauto.
  - intros j. rewrite lookup_insert_is_Some'. intros [<-|H]; [lia|]. apply Hi in H. lia.
Qed.

Lemma write_ino_wf f i b : fs_wf f -> fs_wf (write_ino f i b).
Proof.
  intros [Hd Hi]. split; simpl.
  - intros q j Hq. rewrite lookup_alter_is_Some. eauto.
  - intros j. rewrite lookup_alter_is_Some. apply Hi.
Qed.

Lemma unlinkSync_wf f p f' : unlinkSync f p = inr f' -> fs_wf f -> fs_wf f'.
Proof.
  unfold unlinkSync. intros H [Hd Hi].
  destruct (negb (valid_path p)), (dirents f !! p); simplify_eq. split; [|done].
  intros q i. simpl. rewrite lookup_delete_Some. intros [_ ?]. eauto.
Qed.

#[export] Hint Resolve empty_fs_wf remove_if_exists_wf open_w_wf write_ino_wf : js.

(** [unlinkSync] removes exactly the entry it is given. *)
Lemma unlinkSync_other f p f' q :
  unlinkSync f p = inr f' -> q <> p -> dirents f' !! q = dirents f !! q.
Proof.
  unfold unlinkSync. intros H Hq.
  destruct (negb (valid_path p)), (dirents f !! p); simplify_eq/=.
  by apply lookup_delete_ne.
Qed.



(** ** Behaviour *)

Lemma remove_if_exists_absent f p : valid_path p = true ->
  dirents (remove_if_exists f p) !! p = None.
Proof.
  intros Hv. unfold remove_if_exists, existsSync, unlinkSync. rewrite Hv. simpl.
  destruct (dirents f !! p) eqn:E; simpl; [|by rewrite E].
  apply lookup_delete_eq.
Qed.

Lemma remove_if_exists_other f p q : q <> p ->
  dirents (remove_if_exists f p) !! q = dirents f !! q.
Proof.
  intros Hq. unfold remove_if_exists, unlinkSync.
  destruct (existsSync f p), (negb (valid_path p)), (dirents f !! p); try done.
  simpl. by apply lookup_delete_ne.
Qed.

(** [existsSync] answers [false] for an invalid path: the guard skips
    the unlink. *)
Lemma remove_if_exists_invalid f p : valid_path p = false -> remove_if_exists f p = f.
Proof. unfold remove_if_exists, existsSync. by intros ->. Qed.

Lemma remove_if_exists_inodes f p : inodes (remove_if_exists f p) = inodes f.
Proof.
  unfold remove_if_exists, unlinkSync.
  by destruct (existsSync f p), (negb (valid_path p)), (dirents f !! p).
Qed.

Lemma open_w_read f p :
  read_file (open_w f p).1 p = Some [] /\ dirents (open_w f p).1 !! p = Some (open_w f p).2.
Proof.
  unfold open_w, read_file. destruct (dirents f !! p) eqn:E; simpl.
  - rewrite E. simpl. by rewrite lookup_insert_eq.
  - rewrite !lookup_insert_eq. simpl. by rewrite lookup_insert_eq.
Qed.

Lemma open_w_other f p q : q <> p -> dirents (open_w f p).1 !! q = dirents f !! q.
Proof.
  intros Hq. unfold open_w. destruct (dirents f !! p); simpl; [done|].
  by rewrite lookup_insert_ne.
Qed.

Lemma open_w_inode f p : inodes (open_w f p).1 !! (open_w f p).2 = Some [].
Proof. unfold open_w. destruct (dirents f !! p); simpl; apply lookup_insert_eq. Qed.

Lemma write_ino_dirents f i b : dirents (write_ino f i b) = dirents f.
Proof. reflexivity. Qed.

Lemma write_ino_inode f i b c :
  inodes f !! i = Some c -> inodes (write_ino f i b) !! i = Some (c ++ b).
Proof. intros Hc. simpl. by rewrite lookup_alter_eq, Hc. Qed.

(** Opening an existing path does not create a new file: it truncates the
    inode the path already names, which another stream may be writing. *)
Lemma open_w_existing f p i : dirents f !! p = Some i -> (open_w f p).2 = i.
Proof. unfold open_w. by intros ->. Qed.

Lemma write_ino_read f p i b c :
  dirents f !! p = Some i -> inodes f !! i = Some c ->
  read_file (write_ino f i b) p = Some (c ++ b).
Proof.
  intros Hp Hc. unfold read_file, write_ino. simpl. rewrite Hp. simpl.
  rewrite lookup_alter_eq, Hc. done.
Qed.

(** ** Inodes are never freed *)

Definition ino_live (f : fs) (i : nat) : Prop := is_Some (inodes f !! i).

Lemma remove_if_exists_live f p i : ino_live f i -> ino_live (remove_if_exists f p) i.
Proof. unfold ino_live. by rewrite remove_if_exists_inodes. Qed.

Lemma open_w_live f p i : ino_live f i -> ino_live (open_w f p).1 i.
Proof.
  unfold ino_live, open_w. destruct (dirents f !! p); simpl;
    rewrite lookup_insert_is_Some'; auto.
Qed.

Lemma open_w_live_new f p : ino_live (open_w f p).1 (open_w f p).2.
Proof. unfold ino_live. rewrite open_w_inode. eauto. Qed.

Lemma write_ino_live f j b i : ino_live f i -> ino_live (write_ino f j b) i.
Proof. unfold ino_live. simpl. by rewrite lookup_alter_is_Some. Qed.

Lemma unlinkSync_live f p f' i : unlinkSync f p = inr f' -> ino_live f i -> ino_live f' i.
Proof.
  unfold unlinkSync, ino_live. intros H.
  destruct (negb (valid_path p)), (dirents f !! p); by simplify_eq.
Qed.

Lemma open_w_eq_wf f p f1 n : open_w f p = (f1, n) -> fs_wf f -> fs_wf f1.
Proof. intros H. replace f1 with (open_w f p).1 by (by rewrite H). apply open_w_wf. Qed.

Lemma open_w_eq_live f p f1 n i : open_w f p = (f1, n) -> ino_live f i -> ino_live f1 i.
Proof. intros H. replace f1 with (open_w f p).1 by (by rewrite H). apply open_w_live. Qed.

Lemma open_w_eq_live_new f p f1 n : open_w f p = (f1, n) -> ino_live f1 n.
Proof.
  intros H. replace f1 with (open_w f p).1 by (by rewrite H).
  replace n with (open_w f p).2 by (by rewrite H). apply open_w_live_new.
Qed.

Lemma open_w_eq_read f p f1 n :
  open_w f p = (f1, n) -> dirents f1 !! p = Some n /\ inodes f1 !! n = Some [].
Proof.
  intros H. replace f1 with (open_w f p).1 by (by rewrite H).
  replace n with (open_w f p).2 by (by rewrite H). split; [apply open_w_read|apply open_w_inode].
Qed.

#[export] Hint Resolve open_w_eq_wf open_w_eq_live open_w_eq_live_new : js.

(** ** No two entries share an inode

    Nothing in the program links a second name to a file, so two paths
    name two different inodes: a stream writes to one file only. *)

Definition dirents_inj (f : fs) : Prop :=
  forall p q i, dirents f !! p = Some i -> dirents f !! q = Some i -> p = q.

Lemma remove_if_exists_inj f p : dirents_inj f -> dirents_inj (remove_if_exists f p).
Proof.
  unfold remove_if_exists, unlinkSync. intros H.
  destruct (existsSync f p), (negb (valid_path p)), (dirents f !! p); try done.
  intros q r i. simpl. rewrite !lookup_delete_Some. intros [_ ?] [_ ?]. eauto.
Qed.

Lemma unlinkSync_inj f p f' : unlinkSync f p = inr f' -> dirents_inj f -> dirents_inj f'.
Proof.
  unfold unlinkSync. intros E H. destruct (negb (valid_path p)), (dirents f !! p); simplify_eq.
  intros q r i. simpl. rewrite !lookup_delete_Some. intros [_ ?] [_ ?]. eauto.
Qed.

Lemma open_w_eq_inj f p f1 n : open_w f p = (f1, n) -> fs_wf f -> dirents_inj f -> dirents_inj f1.
Proof.
  unfold open_w. intros E [Hd Hi] H. destruct (dirents f !! p) eqn:Ep; simplify_eq; [done|].
  intros q r i. simpl. rewrite !lookup_insert_Some.
  assert (forall s, dirents f !! s = Some (next_ino f) -> False).
  { intros s Hs. apply Hd, Hi in Hs. lia. }
  intros [[<- <-]|[_ Hq]] [[<- Hr]|[_ Hr]]; eauto; subst; exfalso; eauto.
Qed.

Lemma write_ino_inj f j b : dirents_inj f -> dirents_inj (write_ino f j b).
Proof. done. Qed.

(** The inode an [open(p, 'w')] writes to: the one the path names, or a
    fresh one. *)
Lemma open_w_target f p :
  dirents f !! p = Some (open_w f p).2 \/ (open_w f p).2 = next_ino f.
Proof. unfold open_w. destruct (dirents f !! p) eqn:E; simpl; auto. Qed.

Lemma open_w_inodes_other f p j :
  j <> (open_w f p).2 -> inodes (open_w f p).1 !! j = inodes f !! j.
Proof. unfold open_w. destruct (dirents f !! p); simpl; intros; by rewrite lookup_insert_ne. Qed.

Lemma live_below f i : fs_wf f -> is_Some (inodes f !! i) -> i < next_ino f.
Proof. intros [_ Hi]. apply Hi. Qed.

#[export] Hint Resolve remove_if_exists_inj unlinkSync_inj open_w_eq_inj write_ino_inj : js.
#[export] Hint Resolve unlinkSync_wf remove_if_exists_live open_w_live open_w_live_new
  write_ino_live unlinkSync_live : js.

End Fs.
