(* ===== verification/Bot.v ===== *)
(** * Bot: the handlers, the dispatch and the interleaving of invocations

    The world is the working directory ([Fs.fs]), the requests sent to
    Telegram in order ([w_out]), the in-flight invocations of the action
    handler ([w_invs], each with its local variables and the point where
    it is suspended), and the rejections that reach [bot.catch] or no
    handler at all ([w_faults]).  An [event] is either a new update, which
    Telegraf dispatches to [bot.start], [bot.on('text')] or [bot.action] in
    registration order, or the environment resuming one invocation: a
    settled promise (lines 36, 40, 73/75), the write stream's [open], a
    chunk, the end or an error of the media stream, the file's [finish].
    [step] is executable and partial (an event that cannot happen in the
    invocation's state is [None]); any sequence of enabled events is a
    possible run, which is how the event loop interleaves invocations
    (spec, section 5).  Sections [Success] and [Invariant] compute the
    paths of one invocation and the invariant of every reachable world;
    section [Progress] bounds the resumptions of an invocation and shows
    that it can always be brought to rest; section [Typing] states what
    the handler's variables hold and that every step keeps it.  The
    theorems on whole runs are in [BotFacts]. *)

From S2P Require Import Prelude JsRegex Link Callback Title Paths Fs.

Module Bot.
Import YtLink Token Title TempPath Fs.

(** ** What the bot sends *)

Definition msg_start : jsstr :=
  ⟦"Send me a YouTube link and choose Audio or Video! "⟧ ++ [0xD83D; 0xDCE5]%N.
Definition msg_invalid : jsstr := [0x2757]%N ++ ⟦" Please send a valid YouTube link."⟧.
Definition msg_prompt : jsstr := ⟦"Do you want to download as video or audio?"⟧.
Definition label_video : jsstr := [0xD83C; 0xDFA5]%N ++ ⟦" Video"⟧.
Definition label_audio : jsstr := [0xD83C; 0xDFB5]%N ++ ⟦" Audio"⟧.
Definition msg_info_failed : jsstr := [0x274C]%N ++ ⟦" Failed to get video info."⟧.
Definition msg_downloading : jsstr := [0x23F3]%N ++ ⟦" Downloading... Please wait."⟧.
Definition msg_download_error : jsstr := [0x274C]%N ++ ⟦" Error downloading the file."⟧.
Definition msg_went_wrong : jsstr := [0x274C]%N ++ ⟦" Something went wrong. Try again."⟧.
Definition msg_bot_error : jsstr := [0x274C]%N ++ ⟦" Bot error!"⟧.

(** A request to the Bot API. *)
Inductive out :=
  | OText (chat : Z) (text : jsstr)
  | OKeyboard (chat : Z) (text : jsstr) (buttons : list (jsstr * jsstr))
  | OAnswerCb (query : nat)
  | OAudio (chat : Z) (content : bytes) (title : jsstr)
  | OVideo (chat : Z) (content : bytes) (caption : jsstr).

(** An update from Telegram; [is_start] is Telegram's [bot_command]
    entity for [/start] at offset 0, which [bot.start] tests;
    [delivered] is whether the chat accepts the messages the bot sends
    while handling it (a user who blocked the bot does not). *)
Inductive update :=
  | UText (chat : Z) (text : jsstr) (is_start delivered : bool)
  | UCallback (chat : Z) (query : nat) (data : jsstr) (delivered : bool).

(** The ytdl-core options of lines 60-61. *)
Inductive format := AudioOnlyHighest | Itag18.

(** The write stream of line 63: opening (writes are buffered) or open
    on an inode. *)
Inductive wstream := WOpening (pending : bytes) | WOpen (ino : nat).

(** The media stream of lines 58-61. *)
Inductive source := SFlowing | SEnded | SErrored.

(** Where an invocation of the action handler is suspended. *)
Inductive phase :=
  | PAnswer                          (** [await ctx.answerCbQuery()], line 36 *)
  | PInfo                            (** [await ytdl.getInfo(url)], line 40 *)
  | PStream (w : wstream) (s : source)  (** listeners of lines 66-83 installed *)
  | PUpload (readable : bool)        (** [await ctx.replyWith...], lines 73/75 *)
  | PDetached  (** line 63 threw: the media stream of lines 58-61 runs on,
                   with no consumer and no [error] listener *)
  | PDone.

(** The handler's local variables, and whether the chat accepts the text
    messages the invocation sends ([i_delivered]). *)
Record inv := mkInv {
  i_chat : Z; i_query : nat; i_delivered : bool;
  i_type : jsstr; i_videoId : jsstr; i_url : jsstr;
  i_title : jsstr; i_path : jsstr; i_format : format;
  i_phase : phase }.

Definition with_phase (i : inv) (p : phase) : inv :=
  mkInv (i_chat i) (i_query i) (i_delivered i) (i_type i) (i_videoId i) (i_url i)
        (i_title i) (i_path i) (i_format i) p.

(** A rejection caught by [bot.catch] (logged, lines 91-94), a rejection
    reaching no handler (an unhandled rejection of Node), or an [error]
    event emitted on a stream without an [error] listener, which
    [EventEmitter.emit] throws out of the event loop (an uncaught
    exception).  In [w_faults] it is tagged with the invocation of the
    action handler that raised it, or [None] for the handler of a text
    update. *)
Inductive fault := FCaught | FUnhandled | FUncaught.

Record world := mkWorld {
  w_fs : fs;
  w_out : list out;
  w_invs : gmap nat inv;
  w_next : nat;
  w_faults : list (option nat * fault) }.

Definition init_world : world := mkWorld empty_fs [] ∅ 0 [].

Inductive act :=
  | AAnswer (ok : bool)            (** line 36 settles *)
  | AInfo (title : option jsstr)   (** line 40 settles: a title or a rejection *)
  | AOpen                          (** the write stream's [open] completes *)
  | AChunk (b : bytes)             (** the media stream emits data, piped on *)
  | AEnd                           (** the media stream ends *)
  | AError                         (** the media stream emits [error] *)
  | AFinish                        (** the file emits [finish] *)
  | AUpload (ok : bool).           (** lines 73/75 settle *)

Inductive event := EUpdate (u : update) | EAct (n : nat) (a : act).

Section Handlers.
(** [__dirname]. *)
Variable dirname : jsstr.

(** Lines 11-13. *)
Definition on_start (chat : Z) : list out := [OText chat msg_start].

(** Lines 15-30. *)
Definition on_text (chat : Z) (text : jsstr) : list out :=
  match yt_video_id text with
  | None => [OText chat msg_invalid]
  | Some videoId =>
      [OKeyboard chat msg_prompt
         [(label_video, callback_data Video videoId); (label_audio, callback_data Audio videoId)]]
  end.

(** Lines 11-30 with the outcome of the reply: [bot.start]'s arrow and
    the [!match] branch (line 20) return the reply's promise, so its
    rejection reaches [bot.catch], which logs it and replies "Bot error!"
    without awaiting (lines 91-94) to the same chat; the prompt of line 24
    is not awaited, so its rejection reaches no handler. *)
Definition on_text_update (chat : Z) (text : jsstr) (is_start delivered : bool)
    : list out * list fault :=
  let o := if is_start then on_start chat else on_text chat text in
  let awaited := is_start || bool_decide (yt_video_id text = None) in
  if delivered then (o, [])
  else if awaited then (o ++ [OText chat msg_bot_error], [FCaught; FUnhandled])
  else (o, [FUnhandled]).

(** Line 34. *)
Definition yt_url (videoId : jsstr) : jsstr := ⟦"https://www.youtube.com/watch?v="⟧ ++ videoId.

(** Lines 33-36: the handler starts and suspends on [answerCbQuery]; the
    fields set later (title, path, format) hold placeholders. *)
Definition start_action (chat : Z) (query : nat) (delivered : bool) (type videoId : jsstr)
    : inv :=
  mkInv chat query delivered type videoId (yt_url videoId) [] [] Itag18 PAnswer.

(** The rejections of [n] text messages the handler sends without
    awaiting them (lines 55, 81, 85): none if the chat accepts them. *)
Definition unawaited (i : inv) (n : nat) : list fault :=
  if i_delivered i then [] else repeat FUnhandled n.

(** A rejection of the handler reaches [bot.catch] (lines 91-94), which
    replies "Bot error!" without awaiting it. *)
Definition caught (i : inv) : list out * list fault :=
  ([OText (i_chat i) msg_bot_error], FCaught :: unawaited i 1).

(** Lines 72-76: the attachment the [finish] listener sends. *)
Definition media (i : inv) (content : bytes) : out :=
  if decide (i_type i = ⟦"audio"⟧) then OAudio (i_chat i) content (i_title i)
  else OVideo (i_chat i) content (i_title i).

(** Lines 44-64 and 84-87, run without suspension once [getInfo]
    resolved with [raw] as [info.videoDetails.title]. *)
Definition info_ok (f : fs) (i : inv) (raw : jsstr) : fs * inv * list out * list fault :=
  let title := sanitize_title raw in
  let path := filePath dirname (i_type i) (i_videoId i) in
  let f1 := remove_if_exists f path in
  let fmt := if decide (i_type i = ⟦"audio"⟧) then AudioOnlyHighest else Itag18 in
  let i1 := mkInv (i_chat i) (i_query i) (i_delivered i) (i_type i) (i_videoId i) (i_url i)
                  title path fmt PDone in
  if valid_path path
  then (f1, with_phase i1 (PStream (WOpening []) SFlowing), [OText (i_chat i) msg_downloading],
        unawaited i 1)
  else (remove_if_exists f1 path, with_phase i1 PDetached,
        [OText (i_chat i) msg_downloading; OText (i_chat i) msg_went_wrong], unawaited i 2).

(** One resumption of an invocation. *)
Definition inv_step (f : fs) (i : inv) (a : act) : option (fs * inv * list out * list fault) :=
  let chat := i_chat i in
  let path := i_path i in
  match i_phase i, a with
  | PAnswer, AAnswer true => Some (f, with_phase i PInfo, [], [])
  | PAnswer, AAnswer false => Some (f, with_phase i PDone, (caught i).1, (caught i).2)
  | PInfo, AInfo None =>
      (* line 42 returns the reply's promise *)
      if i_delivered i then Some (f, with_phase i PDone, [OText chat msg_info_failed], [])
      else Some (f, with_phase i PDone, OText chat msg_info_failed :: (caught i).1, (caught i).2)
  | PInfo, AInfo (Some raw) => Some (info_ok f i raw)
  | PStream (WOpening pend) s, AOpen =>
      let '(f1, ino) := open_w f path in
      Some (write_ino f1 ino pend, with_phase i (PStream (WOpen ino) s), [], [])
  | PStream (WOpening pend) SFlowing, AChunk b =>
      Some (f, with_phase i (PStream (WOpening (pend ++ b)) SFlowing), [], [])
  | PStream (WOpen ino) SFlowing, AChunk b =>
      Some (write_ino f ino b, i, [], [])
  | PStream w SFlowing, AEnd => Some (f, with_phase i (PStream w SEnded), [], [])
  | PStream w SFlowing, AError =>
      Some (remove_if_exists f path, with_phase i (PStream w SErrored),
            [OText chat msg_download_error], unawaited i 1)
  | PStream (WOpen _) SEnded, AFinish =>
      match read_file f path with
      | Some c => Some (f, with_phase i (PUpload true), [media i c], [])
      | None => Some (f, with_phase i (PUpload false), [], [])
      end
  | PUpload true, AUpload true =>
      match unlinkSync f path with
      | inr f' => Some (f', with_phase i PDone, [], [])
      | inl _ => Some (f, with_phase i PDone, [], [FUnhandled])
      end
  | PUpload _, AUpload false => Some (f, with_phase i PDone, [], [FUnhandled])
  | PDetached, AError => Some (f, with_phase i PDone, [], [FUncaught])
  | _, _ => None
  end.

(** Telegraf's middleware chain in registration order: [bot.start]
    (line 11), [bot.on('text')] (line 15), [bot.action] (line 32). *)
Definition dispatch (w : world) (u : update) : world :=
  match u with
  | UText chat text is_start delivered =>
      let '(o, fl) := on_text_update chat text is_start delivered in
      mkWorld (w_fs w) (w_out w ++ o) (w_invs w) (w_next w) (w_faults w ++ map (pair None) fl)
  | UCallback chat query data delivered =>
      match parse_action data with
      | None => w
      | Some (type, videoId) =>
          mkWorld (w_fs w) (w_out w ++ [OAnswerCb query])
            (<[w_next w := start_action chat query delivered type videoId]> (w_invs w))
            (S (w_next w)) (w_faults w)
      end
  end.

Definition step (w : world) (e : event) : option world :=
  match e with
  | EUpdate u => Some (dispatch w u)
  | EAct n a =>
      i ← w_invs w !! n;
      '(f', i', o, fl) ← inv_step (w_fs w) i a;
      Some (mkWorld f' (w_out w ++ o) (<[n := i']> (w_invs w)) (w_next w)
              (w_faults w ++ map (pair (Some n)) fl))
  end.

Fixpoint run (w : world) (es : list event) : option world :=
  match es with
  | [] => Some w
  | e :: es' => w' ← step w e; run w' es'
  end.

Inductive reachable : world -> Prop :=
  | reach_init : reachable init_world
  | reach_step w e w' : reachable w -> step w e = Some w' -> reachable w'.

(** Several resumptions of one invocation, with what they send and
    raise. *)
Fixpoint inv_run (f : fs) (i : inv) (acts : list act)
    : option (fs * inv * list out * list fault) :=
  match acts with
  | [] => Some (f, i, [], [])
  | a :: rest =>
      '(f1, i1, o1, fl1) ← inv_step f i a;
      '(f2, i2, o2, fl2) ← inv_run f1 i1 rest;
      Some (f2, i2, o1 ++ o2, fl1 ++ fl2)
  end.

End Handlers.

(** ** Lemmas on runs *)

#[local] Arguments filePath : simpl never.
#[local] Arguments sanitize_title : simpl never.
#[local] Arguments remove_if_exists : simpl never.
#[local] Arguments open_w : simpl never.

Section Runs.
Variable dirname : jsstr.

Lemma run_app w es1 es2 :
  run dirname w (es1 ++ es2) = (w' ← run dirname w es1; run dirname w' es2).
Proof.
  revert w; induction es1 as [|e es1 IH]; intros w; simpl; [done|].
  destruct (step dirname w e); simpl; [apply IH|done].
Qed.

Lemma inv_run_app f i as1 as2 :
  inv_run dirname f i (as1 ++ as2) =
  ('(f1, i1, o1, fl1) ← inv_run dirname f i as1;
   '(f2, i2, o2, fl2) ← inv_run dirname f1 i1 as2;
   Some (f2, i2, o1 ++ o2, fl1 ++ fl2)).
Proof.
  revert f i; induction as1 as [|a as1 IH]; intros f i; simpl.
  - by destruct (inv_run dirname f i as2) as [[[[? ?] ?] ?]|].
  - destruct (inv_step dirname f i a) as [[[[f1 i1] o1] fl1]|]; simpl; [|done].
    rewrite IH. destruct (inv_run dirname f1 i1 as1) as [[[[f2 i2] o2] fl2]|]; simpl; [|done].
    destruct (inv_run dirname f2 i2 as2) as [[[[f3 i3] o3] fl3]|]; simpl; [|done].
    by rewrite !app_assoc.
Qed.

(** The events of one invocation, run in the world, do what [inv_run]
    computes and touch no other invocation. *)
Lemma run_acts w n i acts f' i' o fl :
  w_invs w !! n = Some i ->
  inv_run dirname (w_fs w) i acts = Some (f', i', o, fl) ->
  run dirname w (map (EAct n) acts) =
  Some (mkWorld f' (w_out w ++ o) (<[n := i']> (w_invs w)) (w_next w)
          (w_faults w ++ map (pair (Some n)) fl)).
Proof.
  revert w i f' i' o fl; induction acts as [|a acts IH]; intros w i f' i' o fl Hn Hr.
  - injection Hr as <- <- <- <-. simpl. rewrite !app_nil_r, insert_id by done.
    by destruct w.
  - simpl in Hr |- *. rewrite Hn. simpl.
    destruct (inv_step dirname (w_fs w) i a) as [[[[f1 i1] o1] fl1]|]; simpl in *; [|done].
    destruct (inv_run dirname f1 i1 acts) as [[[[f2 i2] o2] fl2]|] eqn:E; simpl in Hr; [|done].
    injection Hr as <- <- <- <-.
    rewrite (IH _ i1 f2 i2 o2 fl2); [|simpl; by rewrite lookup_insert_eq|done].
    simpl. rewrite insert_insert_eq, map_app, !app_assoc. done.
Qed.

(** A callback whose data the pattern accepts starts an invocation. *)
Lemma step_spawn w chat q data d type videoId :
  parse_action data = Some (type, videoId) ->
  step dirname w (EUpdate (UCallback chat q data d)) =
  Some (mkWorld (w_fs w) (w_out w ++ [OAnswerCb q])
          (<[w_next w := start_action chat q d type videoId]> (w_invs w))
          (S (w_next w)) (w_faults w)).
Proof. intros H. simpl. by rewrite H. Qed.

(** Chunks written through an open descriptor accumulate in its inode. *)
Lemma inv_run_chunks f i ino c bs :
  i_phase i = PStream (WOpen ino) SFlowing ->
  inodes f !! ino = Some c ->
  exists f', inv_run dirname f i (map AChunk bs) = Some (f', i, [], []) /\
    dirents f' = dirents f /\ inodes f' !! ino = Some (c ++ concat bs).
Proof.
  revert f c; induction bs as [|b bs IH]; intros f c Hp Hc.
  - exists f. rewrite app_nil_r. done.
  - cbn [map inv_run]. unfold inv_step at 1. rewrite Hp.
    destruct (IH (write_ino f ino b) (c ++ b)) as (f' & Hr & Hd & Hi); [done| |].
    { simpl. by rewrite lookup_alter_eq, Hc. }
    exists f'. simpl. rewrite Hr. simpl. split; [done|]. split; [done|].
    by rewrite Hi, app_assoc.
Qed.

(** ** The equations of [inv_step], one per transition *)

Lemma inv_run_cons f i a rest :
  inv_run dirname f i (a :: rest) =
  ('(f1, i1, o1, fl1) ← inv_step dirname f i a;
   '(f2, i2, o2, fl2) ← inv_run dirname f1 i1 rest;
   Some (f2, i2, o1 ++ o2, fl1 ++ fl2)).
Proof. reflexivity. Qed.

Section Steps.
Variables (f : fs) (i : inv).

Lemma step_answer_ok : i_phase i = PAnswer ->
  inv_step dirname f i (AAnswer true) = Some (f, with_phase i PInfo, [], []).
Proof. unfold inv_step. by intros ->. Qed.

Lemma step_answer_fail : i_phase i = PAnswer ->
  inv_step dirname f i (AAnswer false) =
  Some (f, with_phase i PDone, [OText (i_chat i) msg_bot_error], FCaught :: unawaited i 1).
Proof. unfold inv_step. by intros ->. Qed.

Lemma step_info_fail : i_phase i = PInfo -> i_delivered i = true ->
  inv_step dirname f i (AInfo None) =
  Some (f, with_phase i PDone, [OText (i_chat i) msg_info_failed], []).
Proof. unfold inv_step. by intros -> ->. Qed.

Lemma step_info_fail_refused : i_phase i = PInfo -> i_delivered i = false ->
  inv_step dirname f i (AInfo None) =
  Some (f, with_phase i PDone, [OText (i_chat i) msg_info_failed; OText (i_chat i) msg_bot_error],
        [FCaught; FUnhandled]).
Proof. unfold inv_step, caught, unawaited. by intros -> ->. Qed.

Lemma step_info_ok raw : i_phase i = PInfo ->
  valid_path (filePath dirname (i_type i) (i_videoId i)) = true ->
  inv_step dirname f i (AInfo (Some raw)) =
  Some (remove_if_exists f (filePath dirname (i_type i) (i_videoId i)),
        mkInv (i_chat i) (i_query i) (i_delivered i) (i_type i) (i_videoId i) (i_url i)
          (sanitize_title raw) (filePath dirname (i_type i) (i_videoId i))
          (if decide (i_type i = ⟦"audio"⟧) then AudioOnlyHighest else Itag18)
          (PStream (WOpening []) SFlowing),
        [OText (i_chat i) msg_downloading], unawaited i 1).
Proof. unfold inv_step, info_ok. intros -> Hv. by rewrite Hv. Qed.

(** Line 63 throws: [createWriteStream] rejects the path; the [catch] of
    lines 84-87 replies and finds no file to delete; the media stream
    created at lines 58-61 is left running without listeners. *)
Lemma step_info_throw raw : i_phase i = PInfo ->
  valid_path (filePath dirname (i_type i) (i_videoId i)) = false ->
  inv_step dirname f i (AInfo (Some raw)) =
  Some (f, mkInv (i_chat i) (i_query i) (i_delivered i) (i_type i) (i_videoId i) (i_url i)
             (sanitize_title raw) (filePath dirname (i_type i) (i_videoId i))
             (if decide (i_type i = ⟦"audio"⟧) then AudioOnlyHighest else Itag18) PDetached,
        [OText (i_chat i) msg_downloading; OText (i_chat i) msg_went_wrong], unawaited i 2).
Proof. unfold inv_step, info_ok. intros -> Hv. by rewrite Hv, !remove_if_exists_invalid. Qed.

Lemma step_open pend src : i_phase i = PStream (WOpening pend) src ->
  inv_step dirname f i AOpen =
  Some (write_ino (open_w f (i_path i)).1 (open_w f (i_path i)).2 pend,
        with_phase i (PStream (WOpen (open_w f (i_path i)).2) src), [], []).
Proof. unfold inv_step. intros ->. destruct (open_w f (i_path i)), src; reflexivity. Qed.

Lemma step_chunk_opening pend b : i_phase i = PStream (WOpening pend) SFlowing ->
  inv_step dirname f i (AChunk b) =
  Some (f, with_phase i (PStream (WOpening (pend ++ b)) SFlowing), [], []).
Proof. unfold inv_step. by intros ->. Qed.

Lemma step_end w : i_phase i = PStream w SFlowing ->
  inv_step dirname f i AEnd = Some (f, with_phase i (PStream w SEnded), [], []).
Proof. unfold inv_step. intros ->. by destruct w. Qed.

Lemma step_error w : i_phase i = PStream w SFlowing ->
  inv_step dirname f i AError =
  Some (remove_if_exists f (i_path i), with_phase i (PStream w SErrored),
        [OText (i_chat i) msg_download_error], unawaited i 1).
Proof. unfold inv_step. intros ->. by destruct w. Qed.

Lemma step_finish ino c : i_phase i = PStream (WOpen ino) SEnded ->
  read_file f (i_path i) = Some c ->
  inv_step dirname f i AFinish = Some (f, with_phase i (PUpload true), [media i c], []).
Proof. unfold inv_step. intros -> Hc. by rewrite Hc. Qed.

Lemma step_finish_missing ino : i_phase i = PStream (WOpen ino) SEnded ->
  read_file f (i_path i) = None ->
  inv_step dirname f i AFinish = Some (f, with_phase i (PUpload false), [], []).
Proof. unfold inv_step. intros -> Hc. by rewrite Hc. Qed.

Lemma step_upload_ok f' : i_phase i = PUpload true ->
  unlinkSync f (i_path i) = inr f' ->
  inv_step dirname f i (AUpload true) = Some (f', with_phase i PDone, [], []).
Proof. unfold inv_step. intros -> Hu. by rewrite Hu. Qed.

Lemma step_upload_fail r : i_phase i = PUpload r ->
  inv_step dirname f i (AUpload false) = Some (f, with_phase i PDone, [], [FUnhandled]).
Proof. unfold inv_step. intros ->. by destruct r. Qed.

Lemma step_detached_error : i_phase i = PDetached ->
  inv_step dirname f i AError = Some (f, with_phase i PDone, [], [FUncaught]).
Proof. unfold inv_step. by intros ->. Qed.
End Steps.

End Runs.

(** One resumption of [inv_run], rewritten with the equation [L]. *)
Tactic Notation "resume" uconstr(L) :=
  rewrite inv_run_cons; erewrite L;
  [cbn [mbind option_bind i_type i_videoId i_chat i_query i_delivered i_url i_title i_path
        i_format i_phase with_phase start_action unawaited repeat]
  | try first [reflexivity | eassumption | (cbn [i_path with_phase]; eassumption)] ..].

Section Success.
Variable dirname : jsstr.

(** The prefix every download shares: the callback is answered, the title
    arrives, the stale file is removed, the file is opened and every chunk
    is written to it. *)
Lemma inv_run_opened f chat q type videoId raw chunks :
  valid_path (filePath dirname type videoId) = true ->
  let path := filePath dirname type videoId in
  exists f4 i4 ino,
    inv_run dirname f (start_action chat q true type videoId)
      ([AAnswer true; AInfo (Some raw); AOpen] ++ map AChunk chunks) =
      Some (f4, i4, [OText chat msg_downloading], []) /\
    i_phase i4 = PStream (WOpen ino) SFlowing /\ i_path i4 = path /\
    i_chat i4 = chat /\ i_delivered i4 = true /\ i_type i4 = type /\
    i_title i4 = sanitize_title raw /\
    dirents f4 !! path = Some ino /\ inodes f4 !! ino = Some (concat chunks) /\
    (forall p, p <> path -> dirents f4 !! p = dirents f !! p).
Proof.
  intros Hv path.
  set (f1 := remove_if_exists f path). set (ino := (open_w f1 path).2).
  set (f3 := write_ino (open_w f1 path).1 ino []).
  rewrite inv_run_app.
  resume step_answer_ok. resume (step_info_ok _ _ _ raw). resume step_open.
  cbn [inv_run mbind option_bind]. fold path f1 ino f3.
  match goal with |- context [inv_run dirname f3 ?j _] => set (i3 := j) end.
  assert (Hp3 : dirents f3 !! path = Some ino) by apply (proj2 (open_w_read f1 path)).
  assert (Hi3 : inodes f3 !! ino = Some []).
  { rewrite <- (app_nil_r []). apply write_ino_inode, open_w_inode. }
  destruct (inv_run_chunks dirname f3 i3 ino [] chunks) as (f4 & Hr & Hd4 & Hi4); [done|done|].
  rewrite Hr. cbn [mbind option_bind app]. exists f4, i3, ino.
  split; [done|]. do 6 (split; [done|]). split; [by rewrite Hd4|]. split; [done|].
  intros p Hp. rewrite Hd4. unfold f3. rewrite write_ino_dirents, open_w_other by done.
  unfold f1. by rewrite remove_if_exists_other.
Qed.

(** The success path of one invocation: the stream ends, the file is
    uploaded and then unlinked. *)
Lemma inv_run_success f chat q type videoId raw chunks :
  valid_path (filePath dirname type videoId) = true ->
  let path := filePath dirname type videoId in
  exists f' i',
    inv_run dirname f (start_action chat q true type videoId)
      ([AAnswer true; AInfo (Some raw); AOpen] ++ map AChunk chunks ++
       [AEnd; AFinish; AUpload true]) =
      Some (f', i', [OText chat msg_downloading;
                     if decide (type = ⟦"audio"⟧)
                     then OAudio chat (concat chunks) (sanitize_title raw)
                     else OVideo chat (concat chunks) (sanitize_title raw)], []) /\
    i_phase i' = PDone /\
    dirents f' !! path = None /\
    (forall p, p <> path -> dirents f' !! p = dirents f !! p).
Proof.
  intros Hv. cbv zeta.
  destruct (inv_run_opened f chat q type videoId raw chunks Hv)
    as (f4 & i4 & ino & Hr & Hph & Hpa & Hch & Hdl & Hty & Hti & Hp4 & Hi4 & Hoth).
  set (path := filePath dirname type videoId) in *.
  rewrite app_assoc, inv_run_app, Hr. cbn [mbind option_bind].
  assert (Hread : read_file f4 path = Some (concat chunks)).
  { unfold read_file. rewrite Hp4. cbn [mbind option_bind]. done. }
  resume step_end. resume step_finish.
  2: { cbn [i_path with_phase]. by rewrite Hpa. }
  resume (step_upload_ok _ _ _ (mkFs (delete path (dirents f4)) (inodes f4) (next_ino f4))).
  2: { unfold unlinkSync. cbn [i_path with_phase]. rewrite Hpa, (Hv : valid_path path = true).
       cbn [negb]. by rewrite Hp4. }
  cbn [inv_run mbind option_bind app].
  eexists _, _. split.
  { unfold media. cbn [i_type i_chat i_title with_phase]. by rewrite Hty, Hch, Hti. }
  split; [done|]. split; [cbn [dirents]; apply lookup_delete_eq|].
  intros p Hp. cbn [dirents]. rewrite lookup_delete_ne by done. by apply Hoth.
Qed.

(** An invocation that has finished, or whose stream failed after the
    file was opened, never resumes again. *)
Definition quiescent (i : inv) : Prop := forall f a, inv_step dirname f i a = None.

Lemma quiescent_done i : i_phase i = PDone -> quiescent i.
Proof. intros Hp f a. unfold inv_step. rewrite Hp. by destruct a. Qed.

Lemma quiescent_errored i ino : i_phase i = PStream (WOpen ino) SErrored -> quiescent i.
Proof. intros Hp f a. unfold inv_step. rewrite Hp. by destruct a. Qed.

(** The media stream fails after the file was opened and partly
    written. *)
Lemma inv_run_stream_error f chat q type videoId raw chunks :
  valid_path (filePath dirname type videoId) = true ->
  let path := filePath dirname type videoId in
  exists f' i',
    inv_run dirname f (start_action chat q true type videoId)
      ([AAnswer true; AInfo (Some raw); AOpen] ++ map AChunk chunks ++ [AError]) =
      Some (f', i', [OText chat msg_downloading; OText chat msg_download_error], []) /\
    quiescent i' /\ dirents f' !! path = None /\
    (forall p, p <> path -> dirents f' !! p = dirents f !! p).
Proof.
  intros Hv. cbv zeta.
  destruct (inv_run_opened f chat q type videoId raw chunks Hv)
    as (f4 & i4 & ino & Hr & Hph & Hpa & Hch & Hdl & _ & _ & _ & _ & Hoth).
  set (path := filePath dirname type videoId) in *.
  rewrite app_assoc, inv_run_app, Hr. cbn [mbind option_bind].
  resume step_error. cbn [inv_run mbind option_bind app]. unfold unawaited. rewrite Hdl.
  eexists _, _. split; [by rewrite Hch|].
  split; [by eapply quiescent_errored|]. rewrite Hpa. split.
  - by apply remove_if_exists_absent.
  - intros p Hp. rewrite remove_if_exists_other by done. by apply Hoth.
Qed.

(** The media stream fails before the write stream has opened its file:
    the [error] listener finds no file to delete, then the pending open
    creates it, and the invocation never resumes. *)
Lemma inv_run_error_before_open f chat q type videoId raw :
  valid_path (filePath dirname type videoId) = true ->
  exists f' i',
    inv_run dirname f (start_action chat q true type videoId)
      [AAnswer true; AInfo (Some raw); AError; AOpen] =
      Some (f', i', [OText chat msg_downloading; OText chat msg_download_error], []) /\
    quiescent i' /\ read_file f' (filePath dirname type videoId) = Some [].
Proof.
  intros Hv.
  resume step_answer_ok. resume (step_info_ok _ _ _ raw). resume step_error.
  resume step_open. cbn [inv_run mbind option_bind app].
  eexists _, _. split; [reflexivity|]. split; [by eapply quiescent_errored|].
  set (g := remove_if_exists _ _).
  rewrite <- (app_nil_r []). apply write_ino_read.
  - apply (proj2 (open_w_read g _)).
  - apply open_w_inode.
Qed.

(** The upload of the finished file fails (lines 73/75): the rejection
    escapes the [finish] listener, line 77 is not reached. *)
Lemma inv_run_upload_fail f chat q type videoId raw chunks :
  valid_path (filePath dirname type videoId) = true ->
  exists f' i' o,
    inv_run dirname f (start_action chat q true type videoId)
      ([AAnswer true; AInfo (Some raw); AOpen] ++ map AChunk chunks ++
       [AEnd; AFinish; AUpload false]) = Some (f', i', o, [FUnhandled]) /\
    quiescent i' /\
    read_file f' (filePath dirname type videoId) = Some (concat chunks).
Proof.
  intros Hv.
  destruct (inv_run_opened f chat q type videoId raw chunks Hv)
    as (f4 & i4 & ino & Hr & Hph & Hpa & _ & _ & _ & _ & Hp4 & Hi4 & _).
  assert (Hread : read_file f4 (filePath dirname type videoId) = Some (concat chunks)).
  { unfold read_file. rewrite Hp4. cbn [mbind option_bind]. done. }
  rewrite app_assoc, inv_run_app, Hr. cbn [mbind option_bind].
  resume step_end. resume step_finish.
  2: { cbn [i_path with_phase]. by rewrite Hpa. }
  resume step_upload_fail. cbn [inv_run mbind option_bind app].
  eexists _, _, _. split; [reflexivity|]. split; [by apply quiescent_done|done].
Qed.

(** ** What every step preserves *)

(** An open write stream's inode exists. *)
Definition open_ok (f : fs) (i : inv) : Prop :=
  forall ino s, i_phase i = PStream (WOpen ino) s -> ino_live f ino.

Lemma inv_step_cases f i a f' i' o fl :
  inv_step dirname f i a = Some (f', i', o, fl) ->
  (fs_wf f -> fs_wf f') /\ (forall j, ino_live f j -> ino_live f' j) /\
  (open_ok f i -> open_ok f' i').
Proof.
  unfold inv_step, info_ok, open_ok. intros H.
  repeat (case_match; simplify_eq/=).
  all: split; [|split]; intros; unfold with_phase in *; simplify_eq/=; eauto with js.
  (* a chunk written by an open stream: both phases name the same inode *)
  match goal with H0 : i_phase ?i = _, H1 : i_phase ?i = _ |- _ => rewrite H0 in H1 end.
  simplify_eq. eauto with js.
Qed.

End Success.

Section Invariant.
Variable dirname : jsstr.

Definition world_wf (w : world) : Prop :=
  fs_wf (w_fs w) /\
  (forall n, w_next w <= n -> w_invs w !! n = None) /\
  (forall n i, w_invs w !! n = Some i -> open_ok (w_fs w) i).

Lemma init_world_wf : world_wf init_world.
Proof.
  split; [apply empty_fs_wf|]. split; intros *; simpl; [by rewrite lookup_empty|].
  by rewrite lookup_empty.
Qed.

Lemma step_wf w e w' : world_wf w -> step dirname w e = Some w' -> world_wf w'.
Proof.
  intros (Hf & Hn & Ho) Hs. destruct e as [u|n a]; simpl in Hs.
  - injection Hs as <-. unfold dispatch. destruct u as [chat text st dl|chat q data d].
    + destruct (on_text_update chat text st dl). split; [done|]. split; [done|]. done.
    + destruct (parse_action data) as [[t v]|]; [|done].
      split; [done|]. split.
      * intros m Hm. cbn [w_invs w_next] in *. apply lookup_insert_None.
        split; [apply Hn; lia|lia].
      * intros m i. simpl. rewrite lookup_insert_Some.
        intros [[_ <-]|[_ Hm]]; [by intros ino s'|]. by eapply Ho.
  - destruct (w_invs w !! n) as [i|] eqn:Hi; [|done]. simpl in Hs.
    destruct (inv_step dirname (w_fs w) i a) as [[[[f' i'] o] fl]|] eqn:E; [|done].
    injection Hs as <-. apply inv_step_cases in E as (Hwf & Hlive & Hok).
    split; [by apply Hwf|]. split.
    + intros m Hm. simpl in *. assert (m <> n).
      { intros ->. rewrite Hn in Hi by done. discriminate. }
      rewrite lookup_insert_ne by done. by apply Hn.
    + intros m j. simpl. rewrite lookup_insert_Some. intros [[_ <-]|[_ Hm]].
      * apply Hok. by eapply Ho.
      * intros ino s Hp. apply Hlive. by eapply Ho.
Qed.

End Invariant.

(** ** Frame, termination and progress of one invocation *)

Section Progress.
Variable dirname : jsstr.

(** A resumption changes the directory only at the path of the
    invocation (the one it computes, for the resumption of line 40). *)
Lemma inv_step_frame f i a f' i' o fl q :
  inv_step dirname f i a = Some (f', i', o, fl) -> q <> i_path i' ->
  dirents f' !! q = dirents f !! q.
Proof.
  unfold inv_step, info_ok. intros H Hq.
  repeat (case_match; simplify_eq/=); unfold with_phase in *; simpl in *;
    rewrite ?write_ino_dirents, ?open_w_other, ?remove_if_exists_other; eauto.
  all: try match goal with H : open_w _ _ = (?f1, _) |- context [dirents ?f1] =>
         replace f1 with (open_w f (i_path i)).1 by (by rewrite H) end.
  all: rewrite ?open_w_other; eauto using unlinkSync_other.
Qed.

(** The number of resumptions, data chunks apart, an invocation in a
    phase can still take. *)
Definition rank (p : phase) : nat :=
  match p with
  | PAnswer => 6
  | PInfo => 5
  | PStream w s =>
      (match w with WOpening _ => 1 | WOpen _ => 0 end) +
      (match s with SFlowing => 3 | SEnded => 2 | SErrored => 0 end)
  | PUpload _ => 1
  | PDetached => 1
  | PDone => 0
  end.

Definition is_chunk (a : act) : bool := match a with AChunk _ => true | _ => false end.

Lemma inv_step_rank f i a f' i' o fl :
  inv_step dirname f i a = Some (f', i', o, fl) ->
  if is_chunk a then rank (i_phase i') = rank (i_phase i)
  else rank (i_phase i') < rank (i_phase i).
Proof.
  unfold inv_step, info_ok. intros H.
  repeat (case_match; simplify_eq/=); unfold with_phase in *; simplify_eq/=;
    rewrite ?H0; simpl; lia.
Qed.

Lemma inv_run_rank f i acts r :
  inv_run dirname f i acts = Some r ->
  length (filter (fun a => negb (is_chunk a)) acts) <= rank (i_phase i).
Proof.
  revert f i r; induction acts as [|a acts IH]; intros f i r H; [simpl; lia|].
  cbn [inv_run] in H.
  destruct (inv_step dirname f i a) as [[[[f1 i1] o1] fl1]|] eqn:E; [|done].
  cbn [mbind option_bind] in H.
  destruct (inv_run dirname f1 i1 acts) as [r1|] eqn:E1; [|done].
  apply IH in E1. apply inv_step_rank in E. rewrite filter_cons.
  destruct (is_chunk a); cbn [negb]; simpl; lia.
Qed.

(** The resumptions that bring an invocation to rest when the
    environment fails every pending operation. *)
Definition drain (p : phase) : list act :=
  match p with
  | PAnswer => [AAnswer false]
  | PInfo => [AInfo None]
  | PStream (WOpening _) SFlowing => [AError; AOpen]
  | PStream (WOpening _) SEnded => [AOpen; AFinish; AUpload false]
  | PStream (WOpening _) SErrored => [AOpen]
  | PStream (WOpen _) SFlowing => [AError]
  | PStream (WOpen _) SEnded => [AFinish; AUpload false]
  | PStream (WOpen _) SErrored => []
  | PUpload _ => [AUpload false]
  | PDetached => [AError]
  | PDone => []
  end.

Lemma drain_nil i : drain (i_phase i) = [] -> quiescent dirname i.
Proof.
  destruct (i_phase i) as [| |[] []| | |] eqn:E; try done; intros _;
    first [by eapply quiescent_errored | by apply quiescent_done].
Qed.

Lemma inv_step_drain f i a rest :
  drain (i_phase i) = a :: rest ->
  exists f' i' o fl, inv_step dirname f i a = Some (f', i', o, fl) /\ drain (i_phase i') = rest.
Proof.
  unfold inv_step. destruct (i_phase i) as [| |[pend|ino] []|r| |]; simpl;
    intros [= <- <-]; repeat case_match; do 4 eexists; split; reflexivity.
Qed.

Lemma inv_run_drain f i :
  exists f' i' o fl, inv_run dirname f i (drain (i_phase i)) = Some (f', i', o, fl) /\
    quiescent dirname i'.
Proof.
  remember (drain (i_phase i)) as l eqn:El. symmetry in El.
  revert f i El; induction l as [|a l IH]; intros f i El.
  - do 4 eexists. split; [reflexivity|]. by apply drain_nil.
  - destruct (inv_step_drain f i a l El) as (f1 & i1 & o1 & fl1 & Hs & Hd).
    destruct (IH f1 i1 Hd) as (f2 & i2 & o2 & fl2 & Hr & Hq).
    do 4 eexists. split; [|exact Hq]. cbn [inv_run]. rewrite Hs. cbn [mbind option_bind].
    by rewrite Hr.
Qed.

(** The resumptions, chunks apart, an invocation number can still
    receive in a world: its rank if it is running, six if it is not yet
    started. *)
Definition budget (w : world) (n : nat) : nat :=
  match w_invs w !! n with
  | Some i => rank (i_phase i)
  | None => if decide (w_next w <= n) then 6 else 0
  end.

(** [e] resumes invocation [n] with something other than a chunk. *)
Definition resumes (n : nat) (e : event) : bool :=
  match e with EAct m a => bool_decide (m = n) && negb (is_chunk a) | EUpdate _ => false end.

Lemma step_budget w e w' n :
  world_wf w -> step dirname w e = Some w' ->
  (if resumes n e then 1 else 0) + budget w' n <= budget w n.
Proof.
  intros (_ & Hn & _) Hs. unfold budget. destruct e as [u|m a]; simpl in Hs.
  - injection Hs as <-. unfold dispatch. destruct u as [chat text st dl|chat q data d];
      [destruct (on_text_update chat text st dl); simpl; lia|].
    destruct (parse_action data) as [[t v]|]; simpl; [|lia].
    destruct (decide (n = w_next w)) as [->|Hne].
    + rewrite lookup_insert_eq, Hn by lia. simpl. rewrite decide_True by lia. lia.
    + rewrite lookup_insert_ne by congruence.
      destruct (w_invs w !! n); [lia|]. repeat case_decide; lia.
  - destruct (w_invs w !! m) as [i|] eqn:Hi; [|done]. simpl in Hs.
    destruct (inv_step dirname (w_fs w) i a) as [[[[f' i'] o] fl]|] eqn:E; [|done].
    injection Hs as <-. simpl. apply inv_step_rank in E.
    destruct (decide (m = n)) as [->|Hne].
    + rewrite lookup_insert_eq, Hi, bool_decide_true by done.
      destruct (is_chunk a); simpl; lia.
    + rewrite lookup_insert_ne, bool_decide_false by done. simpl. lia.
Qed.

Lemma run_budget w es w' n :
  world_wf w -> run dirname w es = Some w' ->
  length (filter (resumes n) es) + budget w' n <= budget w n.
Proof.
  revert w; induction es as [|e es IH]; intros w Hw Hr; simpl in Hr.
  - injection Hr as <-. simpl. lia.
  - destruct (step dirname w e) as [w1|] eqn:Hs; [|done]. simpl in Hr.
    pose proof (step_budget w e w1 n Hw Hs) as H1.
    pose proof (IH w1 (step_wf dirname w e w1 Hw Hs) Hr) as H2.
    rewrite filter_cons. destruct (resumes n e); simpl in *; lia.
Qed.

End Progress.

End Bot.
