(* ===== verification/BotFacts.v ===== *)
(** * BotFacts: end-to-end theorems about the bot

    The behaviour of the whole program, stated on the world of [Bot]: the
    reply to a text message, the outcome of a pressed button on each path
    of the action handler (success, metadata failure, stream error after
    the file opens, failed upload, synchronous failure), the race of two
    invocations on one path for every world, chat, title and chunks, the
    frame of one resumption, the bound on resumptions, the exact effect
    of a callback update, and what becomes of the replies a chat
    refuses. *)

From S2P Require Import Prelude JsRegex Link Callback Title Paths Fs Bot.

Module BotFacts.
Import YtLink Token TokenFacts Title TempPath Fs Bot.

#[local] Arguments filePath : simpl never.
#[local] Arguments sanitize_title : simpl never.

Section Scenarios.
Variable dirname : jsstr.

(** The attachment of lines 72-76 for a choice. *)
Definition attachment (k : kind) (chat : Z) (c : bytes) (t : jsstr) : out :=
  match k with Audio => OAudio chat c t | Video => OVideo chat c t end.

(** A pressed button followed by resumptions of the invocation it
    starts. *)
Lemma run_callback w chat q d k videoId acts f' i' o fl :
  videoId <> [] -> dot_free videoId = true ->
  inv_run dirname (w_fs w) (start_action chat q d (kind_str k) videoId) acts =
    Some (f', i', o, fl) ->
  run dirname w (EUpdate (UCallback chat q (callback_data k videoId) d) ::
                 map (EAct (w_next w)) acts) =
  Some (mkWorld f' (w_out w ++ OAnswerCb q :: o) (<[w_next w := i']> (w_invs w))
          (S (w_next w)) (w_faults w ++ map (pair (Some (w_next w))) fl)).
Proof.
  intros Hne Hd Hr. cbn [run].
  rewrite (step_spawn _ _ _ _ _ _ (kind_str k) videoId) by (by apply parse_callback_data).
  cbn [mbind option_bind]. erewrite run_acts; [|apply lookup_insert_eq|exact Hr].
  cbn. by rewrite insert_insert_eq, <- app_assoc.
Qed.

Lemma decide_kind_audio k (A B : out) :
  (if decide (kind_str k = ⟦"audio"⟧) then A else B) = match k with Audio => A | Video => B end.
Proof. by destruct k. Qed.

(** C1: a pressed button whose download succeeds: the callback is
    answered, "Downloading" is sent, the attachment carries exactly the
    bytes the media stream produced (a stale file at the path does not
    leak into it) with the sanitised title, the temporary file is gone
    afterwards, no other file of the directory changed, and nothing was
    raised. *)
Theorem action_delivers w chat q k videoId raw chunks :
  videoId <> [] -> dot_free videoId = true ->
  valid_path (filePath dirname (kind_str k) videoId) = true ->
  exists w',
    run dirname w (EUpdate (UCallback chat q (callback_data k videoId) true) ::
      map (EAct (w_next w))
        ([AAnswer true; AInfo (Some raw); AOpen] ++ map AChunk chunks ++
         [AEnd; AFinish; AUpload true])) = Some w' /\
    w_out w' = w_out w ++ [OAnswerCb q; OText chat msg_downloading;
                           attachment k chat (concat chunks) (sanitize_title raw)] /\
    dirents (w_fs w') !! filePath dirname (kind_str k) videoId = None /\
    (forall p, p <> filePath dirname (kind_str k) videoId ->
       dirents (w_fs w') !! p = dirents (w_fs w) !! p) /\
    w_faults w' = w_faults w.
Proof.
  intros Hne Hd Hv.
  destruct (inv_run_success dirname (w_fs w) chat q (kind_str k) videoId raw chunks Hv)
    as (f' & i' & Hr & _ & Habs & Hoth).
  erewrite run_callback by done. eexists. split; [reflexivity|]. cbn [w_out w_fs w_faults].
  rewrite decide_kind_audio, app_nil_r. split; [by destruct k|]. done.
Qed.

(** C13: [getInfo] rejects (line 40): the callback is answered, exactly
    "Failed to get video info" is sent, no file is created or removed and
    nothing is raised. *)
Theorem action_info_failure w chat q k videoId :
  videoId <> [] -> dot_free videoId = true ->
  exists w',
    run dirname w (EUpdate (UCallback chat q (callback_data k videoId) true) ::
      map (EAct (w_next w)) [AAnswer true; AInfo None]) = Some w' /\
    w_out w' = w_out w ++ [OAnswerCb q; OText chat msg_info_failed] /\
    w_fs w' = w_fs w /\ w_faults w' = w_faults w /\
    option_map i_phase (w_invs w' !! w_next w) = Some PDone.
Proof.
  intros Hne Hd. erewrite run_callback; [| done | done |].
  2: { resume step_answer_ok. resume step_info_fail. reflexivity. }
  eexists. split; [reflexivity|]. cbn. by rewrite lookup_insert_eq, !app_nil_r.
Qed.


(** C14: the media stream fails after the file was opened and partly
    written (spec, section 8): "Error downloading the file" is sent, the
    partial file is removed, no other file changed, and the invocation
    never resumes. *)
Theorem action_stream_error w chat q k videoId raw chunks :
  videoId <> [] -> dot_free videoId = true ->
  valid_path (filePath dirname (kind_str k) videoId) = true ->
  exists w',
    run dirname w (EUpdate (UCallback chat q (callback_data k videoId) true) ::
      map (EAct (w_next w))
        ([AAnswer true; AInfo (Some raw); AOpen] ++ map AChunk chunks ++ [AError])) = Some w' /\
    w_out w' = w_out w ++ [OAnswerCb q; OText chat msg_downloading; OText chat msg_download_error] /\
    dirents (w_fs w') !! filePath dirname (kind_str k) videoId = None /\
    (forall p, p <> filePath dirname (kind_str k) videoId ->
       dirents (w_fs w') !! p = dirents (w_fs w) !! p) /\
    w_faults w' = w_faults w.
Proof.
  intros Hne Hd Hv.
  destruct (inv_run_stream_error dirname (w_fs w) chat q (kind_str k) videoId raw chunks Hv)
    as (f' & i' & Hr & _ & Habs & Hoth).
  erewrite run_callback by done. eexists. split; [reflexivity|]. cbn.
  by rewrite !app_nil_r.
Qed.


(** C17: the write stream cannot be created (line 63 throws on a path
    with a NUL code unit, which the action pattern lets through): the
    [catch] of lines 84-87 sends "Something went wrong" after
    "Downloading" and the directory is unchanged.  The media stream
    created at lines 58-61, before the throw, is not stopped and has no
    [error] listener: an error it emits later sends nothing and is an
    uncaught exception of the process. *)
Theorem action_sync_failure w chat q k videoId raw :
  videoId <> [] -> dot_free videoId = true ->
  valid_path (filePath dirname (kind_str k) videoId) = false ->
  exists w',
    run dirname w (EUpdate (UCallback chat q (callback_data k videoId) true) ::
      map (EAct (w_next w)) [AAnswer true; AInfo (Some raw)]) = Some w' /\
    w_out w' = w_out w ++ [OAnswerCb q; OText chat msg_downloading; OText chat msg_went_wrong] /\
    w_fs w' = w_fs w /\ w_faults w' = w_faults w /\
    exists w'', step dirname w' (EAct (w_next w) AError) = Some w'' /\
      w_out w'' = w_out w' /\ w_fs w'' = w_fs w /\
      w_faults w'' = w_faults w ++ [(Some (w_next w), FUncaught)].
Proof.
  intros Hne Hd Hv. erewrite run_callback; [| done | done |].
  2: { resume step_answer_ok. resume step_info_throw. reflexivity. }
  eexists. split; [reflexivity|]. cbn. rewrite !app_nil_r. do 3 (split; [done|]).
  rewrite lookup_insert_eq. cbn. eexists. split; [reflexivity|]. cbn. by rewrite !app_nil_r.
Qed.

(** C6: the chat refuses the bot's messages.  When [getInfo] rejects,
    line 42 returns the refused reply's promise, so the handler rejects
    and [bot.catch] (lines 91-94) tries its own reply, which is refused
    in turn and becomes an unhandled rejection.  When the stream fails,
    the "Downloading" reply of line 55 and the error reply of line 81
    are not awaited: each refusal is an unhandled rejection of its own,
    and [bot.catch] is never reached. *)
Theorem action_reply_refused w chat q k videoId raw :
  videoId <> [] -> dot_free videoId = true ->
  valid_path (filePath dirname (kind_str k) videoId) = true ->
  (exists w',
    run dirname w (EUpdate (UCallback chat q (callback_data k videoId) false) ::
      map (EAct (w_next w)) [AAnswer true; AInfo None]) = Some w' /\
    w_out w' = w_out w ++ [OAnswerCb q; OText chat msg_info_failed; OText chat msg_bot_error] /\
    w_faults w' = w_faults w ++ [(Some (w_next w), FCaught); (Some (w_next w), FUnhandled)]) /\
  (exists w',
    run dirname w (EUpdate (UCallback chat q (callback_data k videoId) false) ::
      map (EAct (w_next w)) [AAnswer true; AInfo (Some raw); AError]) = Some w' /\
    w_out w' = w_out w ++ [OAnswerCb q; OText chat msg_downloading; OText chat msg_download_error] /\
    w_faults w' = w_faults w ++ [(Some (w_next w), FUnhandled); (Some (w_next w), FUnhandled)]).
Proof.
  intros Hne Hd Hv. split.
  - erewrite run_callback; [| done | done |].
    2: { resume step_answer_ok. resume step_info_fail_refused. reflexivity. }
    by eexists.
  - erewrite run_callback; [| done | done |].
    2: { resume step_answer_ok. resume (step_info_ok _ _ _ raw). resume step_error. reflexivity. }
    by eexists.
Qed.

(** The invocation a run resumes is the one the world holds. *)
Local Ltac inv_lookup :=
  cbn [w_invs];
  repeat first [rewrite lookup_insert_eq; reflexivity | rewrite lookup_insert_ne by lia].

(** C18: two invocations for the same (type, identifier) share the
    path, whatever the world, the chats, the titles and the chunks.  In
    this interleaving the second one's stale-file cleanup (line 53)
    unlinks the first one's finished file and its [open] creates a new
    one, so the first user is sent the bytes of the second user's
    partial download; the first one's cleanup (line 77) then unlinks the
    second one's file, whose upload can only fail. *)
Theorem race_same_key w c1 c2 q1 q2 k videoId t1 t2 b1 b2 :
  videoId <> [] -> dot_free videoId = true ->
  valid_path (filePath dirname (kind_str k) videoId) = true ->
  exists w',
    run dirname w
      ([EUpdate (UCallback c1 q1 (callback_data k videoId) true);
        EUpdate (UCallback c2 q2 (callback_data k videoId) true)] ++
       map (EAct (w_next w)) (([AAnswer true; AInfo (Some t1); AOpen] ++ map AChunk b1) ++ [AEnd]) ++
       map (EAct (S (w_next w))) ([AAnswer true; AInfo (Some t2); AOpen] ++ map AChunk b2) ++
       map (EAct (w_next w)) [AFinish; AUpload true] ++
       map (EAct (S (w_next w))) [AEnd; AFinish]) = Some w' /\
    w_out w' = w_out w ++ [OAnswerCb q1; OAnswerCb q2; OText c1 msg_downloading;
                           OText c2 msg_downloading; attachment k c1 (concat b2) (sanitize_title t1)] /\
    option_map i_phase (w_invs w' !! S (w_next w)) = Some (PUpload false) /\
    dirents (w_fs w') !! filePath dirname (kind_str k) videoId = None.
Proof.
  intros Hne Hd Hv. set (p := filePath dirname (kind_str k) videoId) in *.
  destruct (inv_run_opened dirname (w_fs w) c1 q1 (kind_str k) videoId t1 b1 Hv)
    as (fA & iA & inoA & HrA & HphA & HpaA & HchA & _ & HtyA & HtiA & _).
  destruct (inv_run_opened dirname fA c2 q2 (kind_str k) videoId t2 b2 Hv)
    as (fB & iB & inoB & HrB & HphB & HpaB & _ & _ & _ & _ & HpB & HiB & _).
  fold p in HpaA, HpaB, HpB.
  set (fC := mkFs (delete p (dirents fB)) (inodes fB) (next_ino fB)).
  assert (HrA1 : inv_run dirname (w_fs w) (start_action c1 q1 true (kind_str k) videoId)
            (([AAnswer true; AInfo (Some t1); AOpen] ++ map AChunk b1) ++ [AEnd]) =
          Some (fA, with_phase iA (PStream (WOpen inoA) SEnded), [OText c1 msg_downloading], [])).
  { rewrite inv_run_app, HrA. cbn [mbind option_bind]. resume step_end. reflexivity. }
  assert (HrA2 : exists iA', inv_run dirname fB (with_phase iA (PStream (WOpen inoA) SEnded))
            [AFinish; AUpload true] =
          Some (fC, iA', [attachment k c1 (concat b2) (sanitize_title t1)], [])).
  { resume step_finish.
    2: { unfold read_file. cbn [i_path with_phase]. by rewrite HpaA, HpB. }
    resume (step_upload_ok _ _ _ fC).
    2: { unfold unlinkSync. cbn [i_path with_phase]. rewrite HpaA, Hv. cbn [negb]. by rewrite HpB. }
    eexists. cbn [inv_run mbind option_bind app]. unfold media. cbn [i_type i_chat i_title with_phase].
    by rewrite HtyA, HchA, HtiA, decide_kind_audio; destruct k. }
  destruct HrA2 as [iA' HrA2].
  assert (HrB2 : exists iB', inv_run dirname fC iB [AEnd; AFinish] = Some (fC, iB', [], []) /\
                             i_phase iB' = PUpload false).
  { resume step_end. resume step_finish_missing.
    2: { unfold read_file. cbn [i_path with_phase dirents fC]. by rewrite HpaB, lookup_delete_eq. }
    eexists. split; reflexivity. }
  destruct HrB2 as (iB' & HrB2 & HphB').
  rewrite run_app. cbn [run].
  rewrite (step_spawn _ _ _ _ _ _ (kind_str k) videoId) by (by apply parse_callback_data).
  cbn [mbind option_bind].
  rewrite (step_spawn _ _ _ _ _ _ (kind_str k) videoId) by (by apply parse_callback_data).
  cbn [mbind option_bind w_next w_fs w_out w_invs w_faults].
  rewrite run_app. erewrite run_acts; [|inv_lookup|exact HrA1].
  cbn [mbind option_bind w_next w_fs w_out w_invs w_faults].
  rewrite run_app. erewrite run_acts; [|inv_lookup|exact HrB].
  cbn [mbind option_bind w_next w_fs w_out w_invs w_faults].
  rewrite run_app. erewrite run_acts; [|inv_lookup|exact HrA2].
  cbn [mbind option_bind w_next w_fs w_out w_invs w_faults].
  erewrite run_acts; [|inv_lookup|exact HrB2].
  eexists. split; [reflexivity|]. cbn [w_next w_fs w_out w_invs w_faults].
  split; [by rewrite <- !app_assoc|]. split.
  - by rewrite lookup_insert_eq; cbn; rewrite HphB'.
  - apply lookup_delete_eq.
Qed.

End Scenarios.

Lemma action_delivers_witness :
  exists w', run ⟦"/srv/bot"⟧ init_world
    (EUpdate (UCallback 7 1 (callback_data Audio ⟦"dQw4w9WgXcQ"⟧) true) ::
     map (EAct 0) ([AAnswer true; AInfo (Some ⟦"Song"⟧); AOpen] ++ map AChunk [[1; 2]; [3]]%N ++
                   [AEnd; AFinish; AUpload true])) = Some w' /\
    w_out w' = [OAnswerCb 1; OText 7 msg_downloading;
                attachment Audio 7 (concat [[1; 2]; [3]]%N) (sanitize_title ⟦"Song"⟧)] /\
    dirents (w_fs w') !! filePath ⟦"/srv/bot"⟧ (kind_str Audio) ⟦"dQw4w9WgXcQ"⟧ = None /\
    (forall p, p <> filePath ⟦"/srv/bot"⟧ (kind_str Audio) ⟦"dQw4w9WgXcQ"⟧ ->
       dirents (w_fs w') !! p = dirents (w_fs init_world) !! p) /\
    w_faults w' = w_faults init_world.
Proof.
  apply (action_delivers ⟦"/srv/bot"⟧ init_world 7 1 Audio); [discriminate|reflexivity|].
  vm_compute. reflexivity.
Defined.

Lemma race_same_key_witness :
  exists w',
    run ⟦"/srv/bot"⟧ init_world
      ([EUpdate (UCallback 7 1 (callback_data Audio ⟦"dQw4w9WgXcQ"⟧) true);
        EUpdate (UCallback 8 2 (callback_data Audio ⟦"dQw4w9WgXcQ"⟧) true)] ++
       map (EAct 0) (([AAnswer true; AInfo (Some ⟦"t"⟧); AOpen] ++ map AChunk [[1]%N]) ++ [AEnd]) ++
       map (EAct 1) ([AAnswer true; AInfo (Some ⟦"u"⟧); AOpen] ++ map AChunk [[2]%N]) ++
       map (EAct 0) [AFinish; AUpload true] ++
       map (EAct 1) [AEnd; AFinish]) = Some w' /\
    w_out w' = [OAnswerCb 1; OAnswerCb 2; OText 7 msg_downloading; OText 8 msg_downloading;
                attachment Audio 7 (concat [[2]%N]) (sanitize_title ⟦"t"⟧)] /\
    option_map i_phase (w_invs w' !! 1) = Some (PUpload false) /\
    dirents (w_fs w') !! filePath ⟦"/srv/bot"⟧ (kind_str Audio) ⟦"dQw4w9WgXcQ"⟧ = None.
Proof.
  apply (race_same_key ⟦"/srv/bot"⟧ init_world 7 8 1 2 Audio); [discriminate|reflexivity|].
  vm_compute. reflexivity.
Defined.

Lemma action_reply_refused_witness :
  (exists w',
    run ⟦"/srv/bot"⟧ init_world (EUpdate (UCallback 7 1 (callback_data Video ⟦"dQw4w9WgXcQ"⟧) false) ::
      map (EAct 0) [AAnswer true; AInfo None]) = Some w' /\
    w_out w' = [OAnswerCb 1; OText 7 msg_info_failed; OText 7 msg_bot_error] /\
    w_faults w' = [(Some 0, FCaught); (Some 0, FUnhandled)]) /\
  (exists w',
    run ⟦"/srv/bot"⟧ init_world (EUpdate (UCallback 7 1 (callback_data Video ⟦"dQw4w9WgXcQ"⟧) false) ::
      map (EAct 0) [AAnswer true; AInfo (Some ⟦"t"⟧); AError]) = Some w' /\
    w_out w' = [OAnswerCb 1; OText 7 msg_downloading; OText 7 msg_download_error] /\
    w_faults w' = [(Some 0, FUnhandled); (Some 0, FUnhandled)]).
Proof.
  apply (action_reply_refused ⟦"/srv/bot"⟧ init_world 7 1 Video); [discriminate|reflexivity|].
  vm_compute. reflexivity.
Defined.

Lemma action_info_failure_witness :
  exists w',
    run ⟦"/srv/bot"⟧ init_world (EUpdate (UCallback 7 1 (callback_data Video ⟦"x"⟧) true) ::
      map (EAct 0) [AAnswer true; AInfo None]) = Some w' /\
    w_out w' = [OAnswerCb 1; OText 7 msg_info_failed] /\
    w_fs w' = w_fs init_world /\ w_faults w' = w_faults init_world /\
    option_map i_phase (w_invs w' !! 0) = Some PDone.
Proof. apply (action_info_failure ⟦"/srv/bot"⟧ init_world 7 1 Video); [discriminate|reflexivity]. Defined.

Lemma action_sync_failure_witness :
  exists w',
    run ⟦"/srv/bot"⟧ init_world (EUpdate (UCallback 7 1 (callback_data Audio [120; 0]%N) true) ::
      map (EAct 0) [AAnswer true; AInfo (Some ⟦"t"⟧)]) = Some w' /\
    w_out w' = [OAnswerCb 1; OText 7 msg_downloading; OText 7 msg_went_wrong] /\
    w_fs w' = w_fs init_world /\ w_faults w' = w_faults init_world /\
    exists w'', step ⟦"/srv/bot"⟧ w' (EAct 0 AError) = Some w'' /\
      w_out w'' = w_out w' /\ w_fs w'' = w_fs init_world /\
      w_faults w'' = w_faults init_world ++ [(Some 0, FUncaught)].
Proof.
  apply (action_sync_failure ⟦"/srv/bot"⟧ init_world 7 1 Audio); [discriminate|reflexivity|].
  vm_compute. reflexivity.
Defined.

Lemma action_stream_error_witness :
  exists w',
    run ⟦"/srv/bot"⟧ init_world (EUpdate (UCallback 7 1 (callback_data Video ⟦"dQw4w9WgXcQ"⟧) true) ::
      map (EAct 0) ([AAnswer true; AInfo (Some ⟦"t"⟧); AOpen] ++ map AChunk [[1]%N] ++ [AError]))
      = Some w' /\
    w_out w' = [OAnswerCb 1; OText 7 msg_downloading; OText 7 msg_download_error] /\
    dirents (w_fs w') !! filePath ⟦"/srv/bot"⟧ (kind_str Video) ⟦"dQw4w9WgXcQ"⟧ = None /\
    (forall p, p <> filePath ⟦"/srv/bot"⟧ (kind_str Video) ⟦"dQw4w9WgXcQ"⟧ ->
       dirents (w_fs w') !! p = dirents (w_fs init_world) !! p) /\
    w_faults w' = w_faults init_world.
Proof.
  apply (action_stream_error ⟦"/srv/bot"⟧ init_world 7 1 Video); [discriminate|reflexivity|].
  vm_compute. reflexivity.
Defined.


(** C7: a text message that is not [/start] gets exactly one reply: the
    validation error when no position of the text starts a link, otherwise
    the prompt whose two buttons carry tokens that the action pattern
    decodes to each choice and to the link's identifier. *)
Theorem text_update_spec dirname w chat text :
  exists o,
    step dirname w (EUpdate (UText chat text false true)) =
      Some (mkWorld (w_fs w) (w_out w ++ [o]) (w_invs w) (w_next w) (w_faults w)) /\
    ((o = OText chat msg_invalid /\ forall j id, ~ is_link (drop j text) id) \/
     (exists id, YtLink.yt_video_id text = Some id /\
        o = OKeyboard chat msg_prompt
              [(label_video, callback_data Video id); (label_audio, callback_data Audio id)] /\
        forall k, parse_action (callback_data k id) = Some (kind_str k, id))).
Proof.
  unfold step, dispatch, on_text_update, on_text. simpl. rewrite app_nil_r.
  destruct (yt_video_id text) as [id|] eqn:E.
  - eexists. split; [reflexivity|]. right. exists id. split; [done|]. split; [done|].
    intros k. by apply (link_token_roundtrip text).
  - eexists. split; [reflexivity|]. left. split; [done|].
    by apply YtLink.yt_video_id_none_iff.
Qed.

(** C8: a text message to a chat that refuses the bot's messages: the
    validation error of line 20 is returned, so its rejection reaches
    [bot.catch], which logs it and attempts "Bot error!" without
    awaiting it, a second rejection that reaches no handler; the prompt
    of line 24 is not awaited, so its rejection bypasses [bot.catch]
    altogether.  Nothing else changes. *)
Theorem text_reply_refused dirname w chat text :
  exists w', step dirname w (EUpdate (UText chat text false false)) = Some w' /\
    w_fs w' = w_fs w /\ w_invs w' = w_invs w /\
    ((YtLink.yt_video_id text = None /\
      w_out w' = w_out w ++ [OText chat msg_invalid; OText chat msg_bot_error] /\
      w_faults w' = w_faults w ++ [(None, FCaught); (None, FUnhandled)]) \/
     (exists id, YtLink.yt_video_id text = Some id /\
      w_out w' = w_out w ++ [OKeyboard chat msg_prompt
              [(label_video, callback_data Video id); (label_audio, callback_data Audio id)]] /\
      w_faults w' = w_faults w ++ [(None, FUnhandled)])).
Proof.
  unfold step, dispatch, on_text_update, on_text. simpl.
  destruct (yt_video_id text) as [id|] eqn:E; simpl; eexists; (split; [reflexivity|]);
    simpl; (split; [done|]); (split; [done|]); [right; by exists id|left; done].
Qed.

(** The trace of the race of section 5 of the spec: users 7 and 8 press
    the same button; 7's download finishes first while 8's is running. *)
Definition race_trace : list event :=
  [EUpdate (UCallback 7 1 (callback_data Audio ⟦"dQw4w9WgXcQ"⟧) true);
   EUpdate (UCallback 8 2 (callback_data Audio ⟦"dQw4w9WgXcQ"⟧) true);
   EAct 0 (AAnswer true); EAct 0 (AInfo (Some ⟦"t"⟧)); EAct 0 AOpen;
   EAct 0 (AChunk [1]%N); EAct 0 AEnd;
   EAct 1 (AAnswer true); EAct 1 (AInfo (Some ⟦"t"⟧)); EAct 1 AOpen;
   EAct 1 (AChunk [2]%N);
   EAct 0 AFinish; EAct 0 (AUpload true); EAct 1 AEnd; EAct 1 AFinish].

Lemma run_reachable dirname w es w' :
  reachable dirname w -> run dirname w es = Some w' -> reachable dirname w'.
Proof.
  revert w; induction es as [|e es IH]; intros w Hw Hr; simpl in Hr; [by injection Hr as <-|].
  destruct (step dirname w e) as [w1|] eqn:Hs; [|done]. eauto using reach_step.
Qed.

(** C19: a resumption of an invocation changes the directory only at
    that invocation's temporary path: the entries of every other path,
    and so the files of every invocation on another (type, identifier)
    pair, are left as they were. *)
Theorem step_act_frame dirname w n a w' :
  step dirname w (EAct n a) = Some w' ->
  exists i', w_invs w' !! n = Some i' /\
    forall q, q <> i_path i' -> dirents (w_fs w') !! q = dirents (w_fs w) !! q.
Proof.
  simpl. destruct (w_invs w !! n) as [i|]; [|done]. simpl.
  destruct (inv_step dirname (w_fs w) i a) as [[[[f' i'] o] fl]|] eqn:E; [|done].
  intros [= <-]. exists i'. simpl. rewrite lookup_insert_eq. split; [done|].
  intros q Hq. by eapply inv_step_frame.
Qed.

(** The world of the race trace after both callbacks and user 7's
    answered query. *)
Definition frame_world : world :=
  default init_world (run ⟦"/srv/bot"⟧ init_world (take 3 race_trace)).

Lemma step_act_frame_witness :
  exists w', step ⟦"/srv/bot"⟧ frame_world (EAct 0 (AInfo (Some ⟦"t"⟧))) = Some w' /\
    exists i', w_invs w' !! 0 = Some i' /\
      forall q, q <> i_path i' -> dirents (w_fs w') !! q = dirents (w_fs frame_world) !! q.
Proof.
  eexists. split; [vm_compute; reflexivity|].
  apply (step_act_frame ⟦"/srv/bot"⟧ frame_world 0 (AInfo (Some ⟦"t"⟧))).
  vm_compute. reflexivity.
Defined.

(** C21: in every run of the bot from its start, each invocation of the
    action handler is resumed at most six times apart from the media
    stream's data chunks (answer, metadata, open, end, finish, upload),
    so every invocation whose stream ends or fails terminates. *)
Theorem run_resumptions_bounded dirname es w' n :
  run dirname init_world es = Some w' -> length (filter (resumes n) es) <= 6.
Proof.
  intros H. pose proof (run_budget dirname init_world es w' n init_world_wf H) as Hb.
  unfold budget at 2 in Hb. simpl in Hb. rewrite lookup_empty in Hb. simpl in Hb. lia.
Qed.

Lemma run_resumptions_bounded_witness :
  exists w', run ⟦"/srv/bot"⟧ init_world race_trace = Some w' /\
    length (filter (resumes 0) race_trace) <= 6.
Proof.
  eexists. split; [vm_compute; reflexivity|].
  eapply (run_resumptions_bounded ⟦"/srv/bot"⟧ race_trace). vm_compute. reflexivity.
Defined.

(** C20: a callback update is answered exactly when its data is a
    button token [video_v] or [audio_v] (with [v] non-empty and free of
    line terminators); it then starts an invocation, suspended on
    [answerCbQuery], for that choice and identifier, whose URL is
    [https://www.youtube.com/watch?v=] followed by [v].  Any other data
    leaves the world unchanged, the query unanswered. *)
Theorem callback_update_spec dirname w chat q data d :
  (exists k v i,
     v <> [] /\ dot_free v = true /\ data = kind_str k ++ ⟦"_"⟧ ++ v /\
     step dirname w (EUpdate (UCallback chat q data d)) =
       Some (mkWorld (w_fs w) (w_out w ++ [OAnswerCb q]) (<[w_next w := i]> (w_invs w))
               (S (w_next w)) (w_faults w)) /\
     i_chat i = chat /\ i_type i = kind_str k /\ i_videoId i = v /\
     i_url i = ⟦"https://www.youtube.com/watch?v="⟧ ++ v /\ i_phase i = PAnswer) \/
  ((forall k v, data = kind_str k ++ ⟦"_"⟧ ++ v -> v = [] \/ dot_free v = false) /\
   step dirname w (EUpdate (UCallback chat q data d)) = Some w).
Proof.
  destruct (parse_action data) as [[t v]|] eqn:E.
  - left. apply parse_action_iff in E as (Ht & Hne & Hd & ->).
    assert (exists k, t = kind_str k) as [k ->] by (destruct Ht as [->| ->]; [exists Video|exists Audio]; reflexivity).
    exists k, v, (start_action chat q d (kind_str k) v). do 3 (split; [done|]).
    split; [apply step_spawn, parse_action_iff; auto; destruct k; auto|]. done.
  - right. split; [|simpl; by rewrite E].
    intros k v ->. destruct v as [|x v]; [by left|]. right.
    destruct (dot_free (x :: v)) eqn:Hd; [|done].
    pose proof (parse_callback_data k (x :: v)) as Hp. unfold callback_data in Hp.
    rewrite Hp in E by done. discriminate.
Qed.

End BotFacts.
