(* ===== verification/Protocol.v ===== *)
(** * Protocol: the conversation a pressed button promises, and its refinement

    Spec, section 4.1 (steps 1-9) and section 7 describe what the user of
    one button sees: the callback is acknowledged; a failed metadata
    request gets one failure message; otherwise "Downloading" is sent,
    then either a download error, a setup error, or the attachment of the
    downloaded bytes with the sanitised title, whose delivery outcome is
    not reported.  [Spec] writes this contract as a labelled transition
    system [pstep] driven by the outcomes of the external operations, with
    no directory, no write stream and no [open] or [end] event: those are
    internal to the implementation.  The contract is parametrised by
    whether the chat accepts the bot's messages: where the code departs
    from the spec (a refused reply at line 42 reaches [bot.catch], a
    media stream outlives a failed setup) it has a constructor of its
    own.  [Refinement] proves that one invocation of the action handler
    of [Bot], run on its own, simulates it: every sequence of
    resumptions produces exactly the messages the protocol allows for
    the visible part of the same events (a forward simulation with the
    relation [sim], as in Leroy's simulation diagram, where the invisible
    events are stuttering steps).  The content of the attachment, the
    number of messages that end a conversation, and that an invocation
    at rest has sent one are then facts of the protocol alone. *)

From S2P Require Import Prelude JsRegex Link Callback Title Paths Fs Bot BotFacts.

Module Protocol.
Import Token Title Fs Bot BotFacts.

Section Spec.
(** The chat, the button, and whether the chat accepts the bot's
    messages. *)
Variables (chat : Z) (k : kind) (d : bool).

(** Where the conversation stands. *)
Inductive cstate :=
  | CAck                                  (** step 1 pending *)
  | CMeta                                 (** step 2 pending *)
  | CDownload (got : bytes) (title : jsstr)  (** steps 6-7: bytes received so far *)
  | CDeliver                              (** step 9: delivery pending *)
  | CAbandoned                            (** step 8 failed; the download runs on unobserved *)
  | CEnd.

(** The contract, one outcome of an external operation at a time, with
    the messages it sends.  For a chat that accepts the messages
    ([d = true]) it is the contract of spec section 4.1.  For one that
    refuses them, the failure message of step 3 is followed by "Bot
    error!" ([p_meta_fail_refused]): the refusal of the reply returned at
    line 42 reaches [bot.catch], where section 7 promises one message per
    failure.  After a failed setup ([p_setup_fail]) the media stream
    already requested may still fail, which sends nothing
    ([p_abandoned_error]). *)
Inductive pstep : cstate -> act -> list out -> cstate -> Prop :=
  | p_ack : pstep CAck (AAnswer true) [] CMeta
  | p_ack_fail : pstep CAck (AAnswer false) [OText chat msg_bot_error] CEnd
  | p_meta_fail : d = true -> pstep CMeta (AInfo None) [OText chat msg_info_failed] CEnd
  | p_meta_fail_refused : d = false ->
      pstep CMeta (AInfo None) [OText chat msg_info_failed; OText chat msg_bot_error] CEnd
  | p_meta t : pstep CMeta (AInfo (Some t)) [OText chat msg_downloading]
                 (CDownload [] (sanitize_title t))
  | p_setup_fail t : pstep CMeta (AInfo (Some t))
                       [OText chat msg_downloading; OText chat msg_went_wrong] CAbandoned
  | p_abandoned_error : pstep CAbandoned AError [] CEnd
  | p_chunk r t b : pstep (CDownload r t) (AChunk b) [] (CDownload (r ++ b) t)
  | p_error r t : pstep (CDownload r t) AError [OText chat msg_download_error] CEnd
  | p_complete r t : pstep (CDownload r t) AFinish [attachment k chat r t] CDeliver
  | p_deliver b : pstep CDeliver (AUpload b) [] CEnd.

Inductive psteps : cstate -> list act -> list out -> cstate -> Prop :=
  | ps_nil s : psteps s [] [] s
  | ps_cons s a o s1 acts o' s2 :
      pstep s a o s1 -> psteps s1 acts o' s2 -> psteps s (a :: acts) (o ++ o') s2.

(** The events the contract sees: the write stream's [open] and the
    media stream's [end] are internal. *)
Definition visible (a : act) : bool :=
  match a with AOpen | AEnd => false | _ => true end.

(** The bytes the media stream emitted. *)
Fixpoint chunk_bytes (acts : list act) : bytes :=
  match acts with
  | [] => []
  | AChunk b :: rest => b ++ chunk_bytes rest
  | _ :: rest => chunk_bytes rest
  end.

Definition got (s : cstate) : bytes := match s with CDownload r _ => r | _ => [] end.

(** The conversation has sent its last message. *)
Definition delivering (s : cstate) : bool :=
  match s with CDeliver | CAbandoned | CEnd => true | _ => false end.

Lemma chunk_bytes_visible acts : chunk_bytes (filter visible acts) = chunk_bytes acts.
Proof. induction acts as [|[] acts IH]; simpl; rewrite ?IH; done. Qed.

Lemma psteps_delivering s acts o s' :
  psteps s acts o s' -> delivering s = true -> o = [] /\ chunk_bytes acts = [].
Proof.
  induction 1 as [|s a o s1 acts o' s2 Hs _ IH]; [done|].
  intros Hd. inversion Hs; subst; simpl in Hd; try discriminate; apply IH; done.
Qed.

Lemma attachment_inj r t r' t' : attachment k chat r t = attachment k chat r' t' -> r = r'.
Proof. destruct k; simpl; congruence. Qed.

(** The attachment carries every byte received before it and none come
    after it. *)
Lemma psteps_attachment s acts o s' r t :
  psteps s acts o s' -> delivering s = false ->
  attachment k chat r t ∈ o -> r = got s ++ chunk_bytes acts.
Proof.
  induction 1 as [|s a o s1 acts o' s2 Hs Hr IH]; [intros _ Hin; by apply elem_of_nil in Hin|].
  intros Hd Hin. apply elem_of_app in Hin as [Hin|Hin].
  - inversion Hs; subst; simpl in Hin |- *; try (by apply elem_of_nil in Hin);
      repeat match goal with H : _ ∈ _ :: _ |- _ => apply elem_of_cons in H as [H|H] end;
      try (by apply elem_of_nil in Hin); try (destruct k; discriminate).
    apply attachment_inj in Hin as ->.
    destruct (psteps_delivering _ _ _ _ Hr eq_refl) as [_ ->]. by rewrite app_nil_r.
  - destruct (delivering s1) eqn:Hd1.
    { by destruct (psteps_delivering _ _ _ _ Hr Hd1) as [-> _]; apply elem_of_nil in Hin. }
    rewrite (IH eq_refl Hin).
    inversion Hs; subst; simpl in *; try discriminate; by rewrite ?app_assoc.
Qed.

(** The messages that end a conversation: the attachment or one of the
    failure messages of spec section 7. *)
Definition failure_msgs : list jsstr :=
  [msg_bot_error; msg_info_failed; msg_download_error; msg_went_wrong].

Definition is_outcome (x : out) : bool :=
  match x with
  | OText _ m => bool_decide (m ∈ failure_msgs)
  | OAudio _ _ _ | OVideo _ _ _ => true
  | _ => false
  end.

Lemma is_outcome_failure c m : m ∈ failure_msgs -> is_outcome (OText c m) = true.
Proof. intros H. by apply bool_decide_true. Qed.

Lemma is_outcome_downloading c : is_outcome (OText c msg_downloading) = false.
Proof. reflexivity. Qed.

Lemma is_outcome_attachment r t : is_outcome (attachment k chat r t) = true.
Proof. by destruct k. Qed.

Ltac outcome_simpl :=
  rewrite ?is_outcome_downloading, ?is_outcome_attachment,
    ?is_outcome_failure by (unfold failure_msgs; set_solver).

(** At most one message ends a conversation, unless the chat refuses the
    messages and the metadata request fails: then two do. *)
Lemma psteps_outcome s acts o s' :
  psteps s acts o s' ->
  length (List.filter is_outcome o) <= (if delivering s then 0 else 1) \/
  (d = false /\ List.filter is_outcome o = [OText chat msg_info_failed; OText chat msg_bot_error]).
Proof.
  induction 1 as [|s a o s1 acts o' s2 Hs Hr IH]; [left; destruct s; simpl; lia|].
  rewrite List.filter_app.
  inversion Hs; subst; simpl in IH |- *; outcome_simpl; simpl; try (by destruct IH; [left|right]).
  all: destruct (psteps_delivering _ _ _ _ Hr eq_refl) as [-> _]; simpl;
    first [left; lia | right; auto].
Qed.


End Spec.

(** ** One invocation simulates the contract *)

Section Refinement.
Variables (dirname : jsstr) (chat : Z) (k : kind) (d : bool).

(** The bytes [r] the write stream [w] of an invocation on path [p]
    holds: still buffered, or in the inode the path names. *)
Definition holds (f : fs) (p : jsstr) (w : wstream) (r : bytes) : Prop :=
  match w with
  | WOpening pend => pend = r
  | WOpen ino => dirents f !! p = Some ino /\ inodes f !! ino = Some r
  end.

(** The simulation relation between the directory and an invocation,
    and the state of the conversation. *)
Definition sim (f : fs) (i : inv) (s : cstate) : Prop :=
  i_chat i = chat /\ i_delivered i = d /\ i_type i = kind_str k /\
  match i_phase i, s with
  | PAnswer, CAck | PInfo, CMeta | PUpload _, CDeliver | PDetached, CAbandoned
  | PDone, CEnd => True
  | PStream _ SErrored, CEnd => True
  | PStream w (SFlowing | SEnded), CDownload r t => t = i_title i /\ holds f (i_path i) w r
  | _, _ => False
  end.

Lemma sim_start f q v : sim f (start_action chat q d (kind_str k) v) CAck.
Proof. done. Qed.

Lemma holds_read f p ino r :
  holds f p (WOpen ino) r -> read_file f p = Some r.
Proof. intros [Hp Hi]. unfold read_file. by rewrite Hp. Qed.

Lemma media_attachment i c :
  i_chat i = chat -> i_type i = kind_str k -> media i c = attachment k chat c (i_title i).
Proof. intros Hc Ht. unfold media. rewrite Ht, Hc, decide_kind_audio. by destruct k. Qed.

(** The simulation diagram: a visible resumption is one step of the
    contract with the same messages, an invisible one sends nothing and
    stays in place. *)
Lemma sim_step f i s a f' i' o fl :
  sim f i s -> inv_step dirname f i a = Some (f', i', o, fl) ->
  exists s', (if visible a then pstep chat k d s a o s' else o = [] /\ s' = s) /\ sim f' i' s'.
Proof.
  intros (Hc & Hdl & Ht & Hm) Hs. unfold inv_step, info_ok, unawaited, caught in Hs.
  rewrite <- Hdl.
  destruct (i_phase i) as [| |[pend|ino] [] |r| |] eqn:Hp; destruct s as [| |g t| | |];
    simpl in Hm; try contradiction; destruct a; repeat (case_match; simplify_eq/=);
    try discriminate;
    try match goal with H : read_file _ _ = _ |- _ =>
      destruct Hm as [? Hh]; rewrite (holds_read _ _ _ _ Hh) in H; simplify_eq/= end;
    try rewrite media_attachment by done;
    rewrite ?Hc; unfold sim, with_phase; simpl; rewrite ?Hc, ?Ht;
    eexists; (split; [first [econstructor | split; reflexivity] | repeat split]); try done.
  all: try match goal with |- i_delivered _ = d => congruence end.
  all: try (rewrite Hp; simpl); simpl; destruct Hm as [? Hh]; simpl in Hh; subst; try done.
  all: try match goal with H : open_w _ _ = _ |- _ => apply open_w_eq_read in H as [Hd Hi] end.
  all: split; [done|]; simpl in *.
  all: destruct_and?; split; [done|]; rewrite lookup_alter_eq; simplify_map_eq; done.
Qed.

Lemma sim_run acts : forall f i s f' i' o fl,
  sim f i s -> inv_run dirname f i acts = Some (f', i', o, fl) ->
  exists s', psteps chat k d s (filter visible acts) o s' /\ sim f' i' s'.
Proof.
  induction acts as [|a acts IH]; intros f i s f' i' o fl Hs Hr.
  - injection Hr as <- <- <- <-. exists s. split; [constructor|done].
  - rewrite inv_run_cons in Hr.
    destruct (inv_step dirname f i a) as [[[[f1 i1] o1] fl1]|] eqn:E; [|done].
    cbn [mbind option_bind] in Hr.
    destruct (inv_run dirname f1 i1 acts) as [[[[f2 i2] o2] fl2]|] eqn:E2; [|done].
    injection Hr as <- <- <- <-.
    destruct (sim_step _ _ _ _ _ _ _ _ Hs E) as (s1 & Hv & Hs1).
    destruct (IH _ _ _ _ _ _ _ Hs1 E2) as (s2 & Hp & Hs2). exists s2. split; [|done].
    rewrite filter_cons. destruct (visible a).
    + by econstructor.
    + by destruct Hv as [-> ->].
Qed.




End Refinement.
End Protocol.

Module ProtocolFacts.
Import Token Title Fs Bot BotFacts Protocol.

(** C2: refinement of the conversation contract.  Run on its own, an
    invocation of the action handler sends, for every sequence of
    outcomes of its external operations and whether or not the chat
    accepts its messages, exactly the messages the contract [pstep]
    allows for the visible part of that sequence (the write stream's
    [open] and the media stream's [end] being internal): the contract of
    spec section 4.1 for a chat that accepts them, with "Bot error!"
    after "Failed to get video info" for one that refuses them. *)
Theorem conversation_refines dirname f chat q d k v acts f' i' o fl :
  inv_run dirname f (start_action chat q d (kind_str k) v) acts = Some (f', i', o, fl) ->
  exists s, psteps chat k d CAck (filter visible acts) o s.
Proof.
  intros H. destruct (sim_run dirname chat k d acts _ _ CAck _ _ _ _ (sim_start _ _ _ _ q v) H)
    as (s & Hp & _). eauto.
Qed.

(** A run where the first chunk arrives before the file is open and
    the stream ends before it too. *)
Definition early_acts : list act :=
  [AAnswer true; AInfo (Some ⟦"t"⟧); AChunk [1]%N; AEnd; AOpen; AFinish; AUpload true].

Lemma conversation_refines_witness :
  exists f' i' fl,
    inv_run ⟦"/srv/bot"⟧ empty_fs (start_action 7 1 true (kind_str Audio) ⟦"dQw4w9WgXcQ"⟧)
      early_acts =
      Some (f', i', [OText 7 msg_downloading; attachment Audio 7 [1]%N (sanitize_title ⟦"t"⟧)], fl) /\
    exists s, psteps 7 Audio true CAck (filter visible early_acts)
      [OText 7 msg_downloading; attachment Audio 7 [1]%N (sanitize_title ⟦"t"⟧)] s.
Proof.
  do 3 eexists. split; [vm_lhs; reflexivity|].
  eapply (conversation_refines ⟦"/srv/bot"⟧ empty_fs 7 1 true Audio ⟦"dQw4w9WgXcQ"⟧ early_acts).
  vm_lhs; reflexivity.
Defined.

(** C3: run on its own, whatever the order of its events (chunks before
    the file is open, the end of the stream before it), an invocation's
    attachment carries exactly the concatenation of all the chunks the
    media stream emitted: none lost, none duplicated, none added after it
    (a stale file at the path does not leak into it either). *)
Theorem isolated_attachment_content dirname f chat q d k v acts f' i' o fl r t :
  inv_run dirname f (start_action chat q d (kind_str k) v) acts = Some (f', i', o, fl) ->
  attachment k chat r t ∈ o -> r = chunk_bytes acts.
Proof.
  intros H Hin. destruct (sim_run dirname chat k d acts _ _ CAck _ _ _ _ (sim_start _ _ _ _ q v) H)
    as (s & Hp & _).
  rewrite <- chunk_bytes_visible. exact (psteps_attachment chat k d _ _ _ _ r t Hp eq_refl Hin).
Qed.

Lemma isolated_attachment_content_witness :
  exists f' i' fl,
    inv_run ⟦"/srv/bot"⟧ empty_fs (start_action 7 1 true (kind_str Audio) ⟦"dQw4w9WgXcQ"⟧)
      early_acts =
      Some (f', i', [OText 7 msg_downloading; attachment Audio 7 [1]%N (sanitize_title ⟦"t"⟧)], fl) /\
    [1]%N = chunk_bytes early_acts.
Proof.
  do 3 eexists. split; [vm_lhs; reflexivity|].
  eapply (isolated_attachment_content ⟦"/srv/bot"⟧ empty_fs 7 1 true Audio ⟦"dQw4w9WgXcQ"⟧ early_acts).
  - vm_lhs; reflexivity.
  - apply elem_of_cons. right. apply elem_of_cons. left. reflexivity.
Defined.

(** C5: spec section 7 says every failure path yields exactly one
    short message.  Run on its own, an invocation sends at most one
    message that ends the conversation (the attachment, "Bot error!",
    "Failed to get video info", "Error downloading the file" or
    "Something went wrong"), whatever the outcomes of its operations,
    with one exception: when the chat refuses the bot's messages and the
    metadata request fails, it sends "Failed to get video info" and then
    "Bot error!" (the reply returned at line 42 is rejected and reaches
    [bot.catch]). *)
Theorem isolated_single_outcome dirname f chat q d k v acts f' i' o fl :
  inv_run dirname f (start_action chat q d (kind_str k) v) acts = Some (f', i', o, fl) ->
  length (List.filter is_outcome o) <= 1 \/
  (d = false /\ List.filter is_outcome o = [OText chat msg_info_failed; OText chat msg_bot_error]).
Proof.
  intros H. destruct (sim_run dirname chat k d acts _ _ CAck _ _ _ _ (sim_start _ _ _ _ q v) H)
    as (s & Hp & _).
  exact (psteps_outcome chat k d _ _ _ _ Hp).
Qed.

Lemma isolated_single_outcome_witness :
  exists f' i' fl,
    inv_run ⟦"/srv/bot"⟧ empty_fs (start_action 7 1 false (kind_str Video) ⟦"dQw4w9WgXcQ"⟧)
      [AAnswer true; AInfo None] =
      Some (f', i', [OText 7 msg_info_failed; OText 7 msg_bot_error], fl) /\
    (length (List.filter is_outcome [OText 7 msg_info_failed; OText 7 msg_bot_error]) <= 1 \/
     (false = false /\
      List.filter is_outcome [OText 7 msg_info_failed; OText 7 msg_bot_error] =
        [OText 7 msg_info_failed; OText 7 msg_bot_error])).
Proof.
  do 3 eexists. split; [vm_lhs; reflexivity|].
  eapply (isolated_single_outcome ⟦"/srv/bot"⟧ empty_fs 7 1 false Video ⟦"dQw4w9WgXcQ"⟧
            [AAnswer true; AInfo None]).
  vm_lhs; reflexivity.
Defined.



End ProtocolFacts.
