(* ===== verification/Isolation.v ===== *)
(** * Isolation: invocations on different paths do not interfere

    Spec, section 5: the working directory is the only resource
    invocations share, uncoordinated; [race_same_key] in [BotFacts] shows
    two invocations on one path corrupting each other's download.  This
    file proves the converse: in every run of the bot in which no two
    invocations are given the same temporary path (by [filePath_inj],
    no two presses of the same (audio or not, identifier) pair), the
    attachment each invocation sends carries exactly the bytes its own
    media stream emitted, whatever the interleaving of the invocations.

    The proof carries an invariant of the run ([iso_inv]): the world
    invariant of [Bot], no two directory entries naming one inode, and
    for every invocation the bytes it has received ([chunk_bytes] of its
    events), which its write stream holds in its buffer or in the inode
    its path names ([owns]).  The hypothesis on paths is stated on the
    final world and carried back along the run, since a path once
    assigned never changes.  The same argument shows that the empty file
    an early stream error leaves behind stays through every run in which
    no other invocation is given its path ([run_keeps_entry]). *)

From S2P Require Import Prelude JsRegex Link Callback Title Paths Fs Bot BotFacts Protocol.

Module Isolation.
Import Token Title TempPath Fs Bot Protocol.

#[local] Arguments filePath : simpl never.
#[local] Arguments sanitize_title : simpl never.
#[local] Arguments remove_if_exists : simpl never.
#[local] Arguments open_w : simpl never.

(** The resumptions of invocation [n] among the events of a run. *)
Fixpoint acts_of (n : nat) (es : list event) : list act :=
  match es with
  | [] => []
  | EAct m a :: rest => if decide (m = n) then a :: acts_of n rest else acts_of n rest
  | EUpdate _ :: rest => acts_of n rest
  end.

Lemma acts_of_app n es1 es2 : acts_of n (es1 ++ es2) = acts_of n es1 ++ acts_of n es2.
Proof. induction es1 as [|[|m a] es1 IH]; simpl; try case_decide; simpl; by rewrite ?IH. Qed.

Lemma chunk_bytes_app as1 as2 : chunk_bytes (as1 ++ as2) = chunk_bytes as1 ++ chunk_bytes as2.
Proof. induction as1 as [|[] as1 IH]; simpl; by rewrite ?IH, ?app_assoc. Qed.

(** What an invocation owns in the directory, given the bytes [r] its
    media stream has emitted so far. *)
Definition owns (f : fs) (i : inv) (r : bytes) : Prop :=
  match i_phase i with
  | PAnswer | PInfo => r = [] /\ i_path i = []
  | PStream w (SFlowing | SEnded) => i_path i <> [] /\ holds f (i_path i) w r
  | _ => True
  end.

(** No two invocations are given one path. *)
Definition paths_disjoint (w : world) : Prop :=
  forall m m' i i', m <> m' -> w_invs w !! m = Some i -> w_invs w !! m' = Some i' ->
    i_path i <> [] -> i_path i <> i_path i'.

Section Isolation.
Variable dirname : jsstr.

(** A path, once assigned, is kept. *)
Lemma inv_step_path f i a f' i' o fl :
  inv_step dirname f i a = Some (f', i', o, fl) -> i_phase i <> PInfo -> i_path i' = i_path i.
Proof.
  unfold inv_step. intros H Hp. destruct (i_phase i); try done;
    repeat (case_match; simplify_eq/=); done.
Qed.

(** The invocation's own resumption keeps what it owns, with the bytes
    of the resumption added. *)
Lemma owns_step_self f i a f' i' o fl r :
  owns f i r -> inv_step dirname f i a = Some (f', i', o, fl) ->
  owns f' i' (r ++ chunk_bytes [a]).
Proof.
  intros Hm Hs. unfold owns in Hm. unfold inv_step, info_ok in Hs.
  destruct (i_phase i) as [| |[pend|ino] [] |r'| |] eqn:Hp; destruct a;
    repeat (case_match; simplify_eq/=); unfold owns, with_phase; simpl; rewrite ?Hp; try done;
    destruct_and?; simplify_eq/=; rewrite ?app_nil_r; try done.
  all: try match goal with H : open_w _ _ = _ |- _ => apply open_w_eq_read in H as [Hd Hi] end.
  all: try rewrite Hp; simpl; split; [auto using filePath_not_nil|]; simpl; destruct_and?;
    split_and?; try done.
  all: rewrite lookup_alter_eq; simplify_map_eq; done.
Qed.

(** The inodes a resumption writes: the one its open stream writes to,
    and the one its [open] picks. *)
Lemma inv_step_inodes f i a f' i' o fl j :
  inv_step dirname f i a = Some (f', i', o, fl) ->
  (forall ino, i_phase i = PStream (WOpen ino) SFlowing -> j <> ino) ->
  (a = AOpen -> j <> (open_w f (i_path i)).2) ->
  inodes f' !! j = inodes f !! j.
Proof.
  unfold inv_step, info_ok. intros Hs H1 H2.
  destruct (i_phase i) as [| |[pend|ino] [] |r'| |] eqn:Hp; destruct a;
    repeat (case_match; simplify_eq/=); simplify_eq/=; rewrite ?remove_if_exists_inodes; try done.
  all: try match goal with H : unlinkSync _ _ = inr _ |- _ =>
         unfold unlinkSync in H; repeat case_match; simplify_eq/=; done end.
  all: try match goal with H : open_w _ _ = (?f1, ?n) |- _ =>
         replace f1 with (open_w f (i_path i)).1 in * by (by rewrite H);
         replace n with (open_w f (i_path i)).2 in * by (by rewrite H) end.
  all: rewrite lookup_alter_ne; [|intros Heq; subst j; first [by apply H2 | by eapply H1]].
  all: try done; apply open_w_inodes_other; auto.
Qed.

Lemma inv_step_open_phase f i f' i' o fl :
  inv_step dirname f i AOpen = Some (f', i', o, fl) -> i_phase i <> PInfo.
Proof. unfold inv_step. intros H Hp. by rewrite Hp in H. Qed.

(** A resumption of another invocation, on another path, keeps what an
    invocation owns. *)
Lemma owns_step_other f im a f' im' o fl rm jn rn :
  fs_wf f -> dirents_inj f -> owns f im rm -> owns f jn rn ->
  inv_step dirname f im a = Some (f', im', o, fl) ->
  (i_path jn <> [] -> i_path jn <> i_path im') ->
  owns f' jn rn.
Proof.
  intros Hwf Hinj Hm Hn Hs Hd. unfold owns in Hn |- *.
  destruct (i_phase jn) as [| |[pend|ino] [] |r'| |]; try done;
    destruct Hn as [Hne Hh]; split; try done; destruct Hh as [Hdn Hin]; simpl.
  all: pose proof (Hd Hne) as Hpath.
  all: rewrite (inv_step_frame _ _ _ _ _ _ _ _ _ Hs Hpath); split; [done|].
  all: rewrite (inv_step_inodes _ _ _ _ _ _ _ _ Hs); [done| |].
  all: try (intros ino' Hp' ->; unfold owns in Hm; rewrite Hp' in Hm;
            destruct Hm as [_ [Hdm _]]; apply Hpath;
            rewrite (inv_step_path _ _ _ _ _ _ _ Hs) by (by rewrite Hp');
            by eapply Hinj).
  all: intros -> Heq; pose proof (inv_step_open_phase _ _ _ _ _ _ Hs) as Hph;
    rewrite (inv_step_path _ _ _ _ _ _ _ Hs Hph) in Hpath;
    destruct (open_w_target f (i_path im)) as [Ht|Ht]; rewrite <- Heq in Ht.
  all: try (apply Hpath; by eapply Hinj).
  all: assert (ino < next_ino f) by (eapply live_below; eauto); lia.
Qed.

Lemma inv_step_inj f i a f' i' o fl :
  fs_wf f -> dirents_inj f -> inv_step dirname f i a = Some (f', i', o, fl) -> dirents_inj f'.
Proof.
  unfold inv_step, info_ok. intros Hwf Hinj Hs.
  repeat (case_match; simplify_eq/=); simplify_eq/=; eauto 6 with js.
Qed.

(** Before line 40 resolves, the path is not assigned yet. *)
Definition path_unset (i : inv) : Prop :=
  match i_phase i with PAnswer | PInfo => i_path i = [] | _ => True end.

Lemma inv_step_unset f i a f' i' o fl :
  path_unset i -> inv_step dirname f i a = Some (f', i', o, fl) -> path_unset i'.
Proof.
  unfold path_unset, inv_step, info_ok. intros Hu Hs.
  destruct (i_phase i) eqn:Hp; destruct a; repeat (case_match; simplify_eq/=); done.
Qed.

(** What every reachable world satisfies, the hypothesis on paths
    apart. *)
Definition base_inv (w : world) : Prop :=
  world_wf w /\ forall n i, w_invs w !! n = Some i -> path_unset i.

Lemma step_base w e w' : base_inv w -> step dirname w e = Some w' -> base_inv w'.
Proof.
  intros [Hwf Hu] Hs. split; [by eapply step_wf|].
  destruct e as [u|m a]; simpl in Hs.
  - injection Hs as <-. unfold dispatch. destruct u as [chat text st dl|chat q data d]; [by destruct (on_text_update chat text st dl)|].
    destruct (parse_action data) as [[t v]|]; [|done]. simpl.
    intros n i. rewrite lookup_insert_Some. intros [[_ <-]|[_ ?]]; [done|eauto].
  - destruct (w_invs w !! m) as [i|] eqn:Hi; [|done]. simpl in Hs.
    destruct (inv_step dirname (w_fs w) i a) as [[[[f' i'] o] fl]|] eqn:E; [|done].
    injection Hs as <-. intros n j. simpl. rewrite lookup_insert_Some.
    intros [[_ <-]|[_ ?]]; [eapply inv_step_unset; eauto|eauto].
Qed.

Lemma run_base w es w' : base_inv w -> run dirname w es = Some w' -> base_inv w'.
Proof.
  revert w; induction es as [|e es IH]; intros w Hw Hr; simpl in Hr; [by injection Hr as <-|].
  destruct (step dirname w e) as [w1|] eqn:Hs; [|done]. eauto using step_base.
Qed.

Lemma init_base : base_inv init_world.
Proof. split; [apply init_world_wf|]. intros n i. simpl. by rewrite lookup_empty. Qed.

(** An assigned path stays with its invocation. *)
Lemma step_path_kept w e w' k j :
  base_inv w -> step dirname w e = Some w' -> w_invs w !! k = Some j -> i_path j <> [] ->
  exists j', w_invs w' !! k = Some j' /\ i_path j' = i_path j.
Proof.
  intros [(_ & Hn & _) Hu] Hs Hk Hne. destruct e as [u|m a]; simpl in Hs.
  - injection Hs as <-. unfold dispatch. destruct u as [chat text st dl|chat q data d]; [destruct (on_text_update chat text st dl); eauto|].
    destruct (parse_action data) as [[t v]|]; [|eauto]. simpl.
    assert (k <> w_next w) by (intros ->; rewrite Hn in Hk by lia; discriminate).
    rewrite lookup_insert_ne by congruence. eauto.
  - destruct (w_invs w !! m) as [i|] eqn:Hi; [|done]. simpl in Hs.
    destruct (inv_step dirname (w_fs w) i a) as [[[[f' i'] o] fl]|] eqn:E; [|done].
    injection Hs as <-. simpl. destruct (decide (k = m)) as [->|Hkm].
    + rewrite lookup_insert_eq. exists i'. split; [done|]. simplify_eq.
      apply (inv_step_path _ _ _ _ _ _ _ E). intros Hp.
      pose proof (Hu _ _ Hi) as Hui. unfold path_unset in Hui. by rewrite Hp in Hui.
    + rewrite lookup_insert_ne by done. eauto.
Qed.

Lemma step_disjoint_back w e w' :
  base_inv w -> step dirname w e = Some w' -> paths_disjoint w' -> paths_disjoint w.
Proof.
  intros Hb Hs Hd m m' i i' Hne Hm Hm' Hp Heq.
  destruct (step_path_kept _ _ _ _ _ Hb Hs Hm Hp) as (j & Hj & Hpj).
  destruct (step_path_kept _ _ _ _ _ Hb Hs Hm' (ltac:(congruence) : i_path i' <> []))
    as (j' & Hj' & Hpj').
  apply (Hd m m' j j'); congruence.
Qed.

Lemma reachable_base w : reachable dirname w -> base_inv w.
Proof. induction 1; eauto using init_base, step_base. Qed.

Lemma run_path_kept w es w' k j :
  base_inv w -> run dirname w es = Some w' -> w_invs w !! k = Some j -> i_path j <> [] ->
  exists j', w_invs w' !! k = Some j' /\ i_path j' = i_path j.
Proof.
  revert w j; induction es as [|e es IH]; intros w j Hb Hr Hk Hne; simpl in Hr;
    [injection Hr as <-; eauto|].
  destruct (step dirname w e) as [w1|] eqn:Hs; [|done]. simpl in Hr.
  destruct (step_path_kept _ _ _ _ _ Hb Hs Hk Hne) as (j1 & Hk1 & Hp1).
  destruct (IH w1 j1) as (j' & ? & ?); [by eapply step_base|done|done|congruence|].
  exists j'. split; congruence.
Qed.

(** An invocation at rest keeps its directory entry through every run in
    which no other invocation is given its path. *)
Lemma run_keeps_entry w es w' n i p :
  base_inv w -> w_invs w !! n = Some i -> quiescent dirname i -> p <> [] ->
  run dirname w es = Some w' ->
  (forall m j, m <> n -> w_invs w' !! m = Some j -> i_path j <> p) ->
  dirents (w_fs w') !! p = dirents (w_fs w) !! p.
Proof.
  revert w; induction es as [|e es IH]; intros w Hb Hn Hq Hp Hr Hoth; simpl in Hr;
    [by injection Hr as <-|].
  destruct (step dirname w e) as [w1|] eqn:Hs; [|done]. simpl in Hr.
  pose proof (step_base _ _ _ Hb Hs) as Hb1. destruct Hb as [(_ & Hfresh & _) _].
  destruct e as [u|m a]; simpl in Hs.
  - injection Hs as <-. assert (n < w_next w).
    { destruct (decide (n < w_next w)); [done|]. rewrite Hfresh in Hn by lia. done. }
    rewrite (IH _ Hb1); [|unfold dispatch; repeat case_match; simpl; rewrite ?lookup_insert_ne by lia; done
                       |done|done|done|done].
    unfold dispatch. by repeat case_match.
  - destruct (w_invs w !! m) as [j|] eqn:Hj; [|done]. simpl in Hs.
    destruct (inv_step dirname (w_fs w) j a) as [[[[f' j'] o] fl]|] eqn:E; [|done].
    injection Hs as <-.
    assert (m <> n) by (intros ->; rewrite Hn in Hj; injection Hj as <-; by rewrite Hq in E).
    rewrite (IH _ Hb1); [|simpl; by rewrite lookup_insert_ne|done|done|done|done]. simpl.
    apply (inv_step_frame dirname _ _ _ _ _ _ _ _ E). intros Heq.
    destruct (run_path_kept _ _ _ m j' Hb1 Hr) as (j'' & Hm'' & Hp'');
      [simpl; apply lookup_insert_eq|congruence|].
    apply (Hoth m j''); congruence.
Qed.

(** The invariant of a run [es] that reached [w]. *)
Definition iso_inv (w : world) (es : list event) : Prop :=
  base_inv w /\ dirents_inj (w_fs w) /\
  (forall n, w_invs w !! n = None -> acts_of n es = []) /\
  (forall n i, w_invs w !! n = Some i -> owns (w_fs w) i (chunk_bytes (acts_of n es))).

Lemma iso_init : iso_inv init_world [].
Proof.
  split; [apply init_base|]. split; [intros p q i; simpl; by rewrite lookup_empty|].
  split; [done|]. intros n i. simpl. by rewrite lookup_empty.
Qed.

Lemma step_iso w es e w' :
  iso_inv w es -> step dirname w e = Some w' -> paths_disjoint w' -> iso_inv w' (es ++ [e]).
Proof.
  intros (Hb & Hinj & Hnone & Hown) Hs Hd. split; [by eapply step_base|].
  destruct Hb as [(Hwf & Hn & _) _].
  destruct e as [u|m a]; simpl in Hs.
  - injection Hs as <-. unfold dispatch.
    assert (forall n, acts_of n (es ++ [EUpdate u]) = acts_of n es) as Ha
      by (intros n; by rewrite acts_of_app, app_nil_r).
    destruct u as [chat text st dl|chat q data d];
      [destruct (on_text_update chat text st dl); simpl; by setoid_rewrite Ha|].
    destruct (parse_action data) as [[t v]|]; simpl; setoid_rewrite Ha; [|done].
    split; [done|]. split.
    + intros n. rewrite lookup_insert_None. intros [? _]. auto.
    + intros n i. rewrite lookup_insert_Some. intros [[<- <-]|[_ ?]]; [|auto].
      unfold owns. simpl. rewrite Hnone by (apply Hn; lia). done.
  - destruct (w_invs w !! m) as [i|] eqn:Hi; [|done]. simpl in Hs.
    destruct (inv_step dirname (w_fs w) i a) as [[[[f' i'] o] fl]|] eqn:E; [|done].
    injection Hs as <-. simpl. split; [by eapply inv_step_inj|]. split.
    + intros n. rewrite lookup_insert_None. intros [? Hnm].
      rewrite acts_of_app. simpl. rewrite decide_False by done. rewrite Hnone by done. done.
    + intros n j. rewrite lookup_insert_Some, acts_of_app. simpl.
      intros [[<- <-]|[Hnm Hj]].
      * rewrite decide_True, chunk_bytes_app by done. eapply owns_step_self; [by apply Hown|exact E].
      * rewrite decide_False, app_nil_r by done. eapply (owns_step_other (w_fs w) i a f' i' o fl);
          [done|done|by apply Hown|by apply Hown|exact E|].
        intros Hp. apply (Hd n m j i'); simpl; [congruence| |apply lookup_insert_eq|done].
        by rewrite lookup_insert_ne.
Qed.

Lemma run_iso es w :
  run dirname init_world es = Some w -> paths_disjoint w -> iso_inv w es.
Proof.
  revert w. induction es as [|e es IH] using rev_ind; intros w Hr Hd.
  - injection Hr as <-. apply iso_init.
  - rewrite run_app in Hr. destruct (run dirname init_world es) as [w0|] eqn:E; [|done].
    simpl in Hr. destruct (step dirname w0 e) as [w1|] eqn:Hs; [|done]. simpl in Hr.
    injection Hr as ->. pose proof (run_base _ _ _ init_base E) as Hb.
    apply (step_iso w0); [|done|done]. apply IH; [done|]. by eapply step_disjoint_back.
Qed.

End Isolation.

(** A decision procedure for [paths_disjoint]. *)
Definition paths_distinct (w : world) : bool :=
  let l := map_to_list (w_invs w) in
  forallb (fun '(m, i) => forallb (fun '(m', i') =>
    bool_decide (m = m') || bool_decide (i_path i = []) ||
    negb (bool_decide (i_path i = i_path i'))) l) l.

Lemma paths_distinct_sound w : paths_distinct w = true -> paths_disjoint w.
Proof.
  unfold paths_distinct. intros H m m' i i' Hne Hm Hm' Hp Heq.
  apply (elem_of_map_to_list (w_invs w)), list_elem_of_In in Hm, Hm'.
  rewrite forallb_forall in H. specialize (H _ Hm). simpl in H.
  rewrite forallb_forall in H. specialize (H _ Hm'). simpl in H.
  rewrite bool_decide_false, bool_decide_false, bool_decide_true in H by done. discriminate.
Qed.

End Isolation.

Module IsolationFacts.
Import Token TempPath Fs Bot BotFacts Protocol Isolation.

(** C4: in every run of the bot in which no two invocations are given
    the same temporary path, the attachment an invocation sends when its
    file is finished (lines 71-76) carries exactly the bytes its own
    media stream emitted, however the resumptions of all invocations were
    interleaved: the corruption of [race_same_key] needs a shared path. *)
Theorem isolated_delivery dirname es w n w' :
  run dirname init_world es = Some w -> step dirname w (EAct n AFinish) = Some w' ->
  paths_disjoint w' ->
  exists i, w_invs w !! n = Some i /\
    w_out w' = w_out w ++ [media i (chunk_bytes (acts_of n es))].
Proof.
  intros Hr Hs Hd. pose proof (run_base dirname _ _ _ init_base Hr) as Hb.
  destruct (run_iso dirname es w Hr (step_disjoint_back dirname _ _ _ Hb Hs Hd))
    as (_ & _ & _ & Hown).
  simpl in Hs. destruct (w_invs w !! n) as [i|] eqn:Hi; [|done]. exists i. split; [done|].
  pose proof (Hown n i Hi) as Ho. unfold owns in Ho. simpl in Hs. unfold inv_step in Hs.
  destruct (i_phase i) as [| |[pend|ino] [] |[]| |]; simpl in Hs; try discriminate.
  destruct Ho as [_ Hh]. rewrite (holds_read _ _ _ _ Hh) in Hs. simpl in Hs.
  by injection Hs as <-.
Qed.

(** Users 7 and 8 press Audio and Video for the same identifier: two
    paths; the downloads interleave, then 7's file is finished. *)
Definition two_keys_trace : list event :=
  [EUpdate (UCallback 7 1 (callback_data Audio ⟦"dQw4w9WgXcQ"⟧) true);
   EUpdate (UCallback 8 2 (callback_data Video ⟦"dQw4w9WgXcQ"⟧) true);
   EAct 0 (AAnswer true); EAct 0 (AInfo (Some ⟦"t"⟧)); EAct 0 AOpen;
   EAct 0 (AChunk [1]%N); EAct 0 AEnd;
   EAct 1 (AAnswer true); EAct 1 (AInfo (Some ⟦"t"⟧)); EAct 1 AOpen;
   EAct 1 (AChunk [2]%N)].

Definition two_keys_world : world :=
  default init_world (run ⟦"/srv/bot"⟧ init_world two_keys_trace).

Lemma isolated_delivery_witness :
  exists i, w_invs two_keys_world !! 0 = Some i /\
    w_out (default init_world (step ⟦"/srv/bot"⟧ two_keys_world (EAct 0 AFinish))) =
    w_out two_keys_world ++ [media i (chunk_bytes (acts_of 0 two_keys_trace))].
Proof.
  apply (isolated_delivery ⟦"/srv/bot"⟧ two_keys_trace two_keys_world 0).
  - vm_compute. reflexivity.
  - vm_compute. reflexivity.
  - apply paths_distinct_sound. vm_compute. reflexivity.
Defined.

(** C15: if the media stream fails before the write stream has opened
    its file, the [error] listener (lines 80-83) finds nothing to delete,
    the pending open then creates the file, and the invocation never runs
    again: an empty file is left in the directory, although the spec says
    no failure branch that attempted a write leaves one.  It stays there
    through every later run of the bot in which no other invocation is
    given the same path; only a later press of the same button, whose
    line 53 deletes it, removes it. *)
Theorem action_error_before_open_orphan dirname w chat q k videoId raw :
  reachable dirname w -> videoId <> [] -> dot_free videoId = true ->
  valid_path (filePath dirname (kind_str k) videoId) = true ->
  exists w',
    run dirname w (EUpdate (UCallback chat q (callback_data k videoId) true) ::
      map (EAct (w_next w)) [AAnswer true; AInfo (Some raw); AError; AOpen]) = Some w' /\
    w_out w' = w_out w ++ [OAnswerCb q; OText chat msg_downloading; OText chat msg_download_error] /\
    read_file (w_fs w') (filePath dirname (kind_str k) videoId) = Some [] /\
    forall es w'', run dirname w' es = Some w'' ->
      (forall m j, m <> w_next w -> w_invs w'' !! m = Some j ->
         i_path j <> filePath dirname (kind_str k) videoId) ->
      dirents (w_fs w'') !! filePath dirname (kind_str k) videoId =
      dirents (w_fs w') !! filePath dirname (kind_str k) videoId.
Proof.
  intros Hreach Hne Hd Hv.
  destruct (inv_run_error_before_open dirname (w_fs w) chat q (kind_str k) videoId raw Hv)
    as (f' & i' & Hr & Hq & Hread).
  pose proof (run_callback dirname w chat q true k videoId _ _ _ _ _ Hne Hd Hr) as Hrw.
  eexists. split; [exact Hrw|]. split; [reflexivity|]. split; [exact Hread|].
  intros es w'' Hrun Hoth. eapply run_keeps_entry; [| |exact Hq|apply filePath_not_nil|exact Hrun|exact Hoth].
  - exact (run_base _ _ _ _ (reachable_base _ _ Hreach) Hrw).
  - simpl. apply lookup_insert_eq.
Qed.

Lemma action_error_before_open_orphan_witness :
  exists w',
    run ⟦"/srv/bot"⟧ init_world (EUpdate (UCallback 7 1 (callback_data Audio ⟦"dQw4w9WgXcQ"⟧) true) ::
      map (EAct 0) [AAnswer true; AInfo (Some ⟦"t"⟧); AError; AOpen]) = Some w' /\
    w_out w' = [OAnswerCb 1; OText 7 msg_downloading; OText 7 msg_download_error] /\
    read_file (w_fs w') (filePath ⟦"/srv/bot"⟧ (kind_str Audio) ⟦"dQw4w9WgXcQ"⟧) = Some [] /\
    forall es w'', run ⟦"/srv/bot"⟧ w' es = Some w'' ->
      (forall m j, m <> 0 -> w_invs w'' !! m = Some j ->
         i_path j <> filePath ⟦"/srv/bot"⟧ (kind_str Audio) ⟦"dQw4w9WgXcQ"⟧) ->
      dirents (w_fs w'') !! filePath ⟦"/srv/bot"⟧ (kind_str Audio) ⟦"dQw4w9WgXcQ"⟧ =
      dirents (w_fs w') !! filePath ⟦"/srv/bot"⟧ (kind_str Audio) ⟦"dQw4w9WgXcQ"⟧.
Proof.
  apply (action_error_before_open_orphan ⟦"/srv/bot"⟧ init_world 7 1 Audio);
    [apply reach_init|discriminate|reflexivity|]. vm_compute. reflexivity.
Defined.

End IsolationFacts.
